(** * ai-transcriber client: capture pipeline, session transport and
      recording interface

    A shallow embedding of the three TypeScript sources of the client

      - [clientApp/src/composables/useAudioRecorder.ts]  (module [AudioRecorder])
      - [clientApp/src/composables/useWebSocket.ts]      (module [WebSocket])
      - [clientApp/src/components/RecordingInterface.vue] (module [UI],
        and [Loop] for the events that drive it)

    followed by the properties of the recording session, the noise gate,
    the transcript history and segment playback.

    Conventions.  A closure of a composable becomes a record holding its
    [ref]s and its [let] variables; every function of the source becomes a
    function from that record to the updated record.  An [async] function is
    cut at its [await]s: one definition per synchronous stretch.  JavaScript
    numbers are modelled as rationals: every finite Number is one, the
    comparisons and [Math.max]/[Math.abs] are exact on them, and the literal
    [0.01] is the double nearest to it.  A product or a quotient is the
    exact one rounded to the nearest double, a store into a [Float32Array]
    rounds to the nearest single (module [Number]).  [NaN], the infinities
    and the sign of zero are not modelled. *)

From Stdlib Require Import QArith Qabs Qround Qpower ZArith Lia Lqa.
From stdpp Require Import base list strings.

Local Open Scope Z_scope.

(** ** JavaScript values *)

(** What a [catch] clause receives: an [Error] carrying a message, or any
    other thrown value, of which only [String(err)] is ever read. *)
Inductive Thrown :=
| ErrorObject (message : string)
| OtherValue (shown : string).

(** [a || b] on [string | null]: [null] and the empty string are falsy. *)
Definition truthy (o : option string) : bool :=
  match o with
  | Some s => negb (String.eqb s "")
  | None => false
  end.

Definition or_else (a b : option string) : option string :=
  if truthy a then a else b.

(** [String.prototype.includes]. *)
Fixpoint includes (needle s : string) : bool :=
  String.prefix needle s ||
  match s with
  | EmptyString => false
  | String _ rest => includes needle rest
  end.

(** ** Numbers

    IEEE 754 round-to-nearest, ties to even, on the rationals.  A format
    is its precision in bits and the exponent of its smallest positive
    number; a number below the normal range is rounded on the fixed grid of
    the subnormals.  The exponent range is not bounded above: a result too
    large for the format is kept as a number of that precision. *)

Module Number.

Record Format := {
  precision : Z;
  emin : Z;
}.

Definition binary64 : Format := {| precision := 53; emin := -1074 |}.
Definition binary32 : Format := {| precision := 24; emin := -149 |}.

(** For [q > 0], the exponent [e] with [2^e <= q < 2^(e+1)]. *)
Definition ilog2 (q : Q) : Z :=
  let d := Z.log2 (Qnum q) - Z.log2 (Zpos (Qden q)) in
  if Qle_bool (2 ^ d) q then d else d - 1.

(** The nearest integer, a tie going to the even one. *)
Definition round_half_even (q : Q) : Z :=
  let f := Qfloor q in
  match (q - inject_Z f ?= 1 # 2)%Q with
  | Lt => f
  | Gt => f + 1
  | Eq => if Z.even f then f else f + 1
  end.

(** The number of the format nearest to [x], in lowest terms. *)
Definition round_to (fmt : Format) (x : Q) : Q :=
  let q := Qred x in
  if Qeq_bool q 0 then 0%Q
  else
    let e := Z.max (ilog2 (Qabs q) - precision fmt + 1) (emin fmt) in
    Qred (inject_Z (round_half_even (q / 2 ^ e)) * 2 ^ e).

(** The result of an arithmetic operation on Numbers whose exact value is
    [x]. *)
Definition to_number : Q -> Q := round_to binary64.

(** [Math.fround]: the conversion a store into a [Float32Array] applies. *)
Definition Math_fround : Q -> Q := round_to binary32.

End Number.

(** ** Base64 ([btoa] over the bytes of a typed array) *)

Definition base64_alphabet : string :=
  "ABCDEFGHIJKLMNOPQRSTUVWXYZabcdefghijklmnopqrstuvwxyz0123456789+/".

Definition sextet (n : Z) : string :=
  match String.get (Z.to_nat (Z.land n 63)) base64_alphabet with
  | Some c => String c EmptyString
  | None => EmptyString
  end.

Fixpoint btoa (bytes : list Z) : string :=
  match bytes with
  | [] => EmptyString
  | [a] =>
      let n := Z.shiftl a 16 in
      sextet (Z.shiftr n 18) +:+ sextet (Z.shiftr n 12) +:+ "=="
  | [a; b] =>
      let n := Z.lor (Z.shiftl a 16) (Z.shiftl b 8) in
      sextet (Z.shiftr n 18) +:+ sextet (Z.shiftr n 12) +:+
      sextet (Z.shiftr n 6) +:+ "="
  | a :: b :: c :: rest =>
      let n := Z.lor (Z.lor (Z.shiftl a 16) (Z.shiftl b 8)) c in
      sextet (Z.shiftr n 18) +:+ sextet (Z.shiftr n 12) +:+
      sextet (Z.shiftr n 6) +:+ sextet n +:+ btoa rest
  end.

(** ** useAudioRecorder.ts *)

Module AudioRecorder.

Definition BUFFER_SIZE : nat := Z.to_nat 8192.

(** The literal [0.01]: the double [5764607523034235 * 2^-59]. *)
Definition MIN_AMPLITUDE : Q := 5764607523034235 # 576460752303423488.

(** What the callback receives: [{ type, data, sampleRate }]. *)
Record AudioData := {
  type : string;
  data : string;
  sampleRate : Z;
}.

(** A script processor node created by [startRecording]: whether it is
    still connected to the audio graph, and the [bufferPosition] its
    [onaudioprocess] handler closes over. *)
Record Node := {
  connected : bool;
  bufferPosition : nat;
}.

(** The closure of [useAudioRecorder].  [nodes] lists every script
    processor node created so far, in creation order; [processor] is the
    variable of that name and points into [nodes].  [audioContext] holds
    the sample rate of the current context, [audioStream] whether a stream
    is held, and [onAudioData] whether a callback is installed (the
    callback itself lives in the component). *)
Record Recorder := {
  isRecording : bool;
  error : option string;
  audioContext : option Z;
  processor : option nat;
  audioStream : bool;
  onAudioData : bool;
  audioBuffer : option (list Q);
  nodes : list Node;
}.

Definition init : Recorder :=
  {| isRecording := false; error := None; audioContext := None;
     processor := None; audioStream := false; onAudioData := false;
     audioBuffer := None; nodes := [] |}.

Definition disconnect_node (n : Node) : Node :=
  {| connected := false; bufferPosition := bufferPosition n |}.

Definition cleanup (r : Recorder) : Recorder :=
  {| isRecording := false; error := error r; audioContext := None;
     processor := None; audioStream := false;
     onAudioData := onAudioData r; audioBuffer := None;
     nodes := match processor r with
              | Some i => alter disconnect_node i (nodes r)
              | None => nodes r
              end |}.

(** [new Float32Array(BUFFER_SIZE)]. *)
Definition new_Float32Array (n : nat) : list Q := replicate n 0%Q.

(** [startRecording] up to [await getUserMedia]. *)
Definition startRecording_request (r : Recorder) : Recorder := cleanup r.

(** [startRecording] after the stream was granted: the audio graph is
    built around a new node whose [bufferPosition] starts at 0. *)
Definition startRecording_granted (r : Recorder) : Recorder :=
  {| isRecording := true; error := None; audioContext := Some 48000;
     processor := Some (length (nodes r)); audioStream := true;
     onAudioData := onAudioData r;
     audioBuffer := Some (new_Float32Array BUFFER_SIZE);
     nodes := nodes r ++ [{| connected := true; bufferPosition := 0 |}] |}.

Definition failure_text (err : Thrown) (fallback : string) : string :=
  match err with
  | ErrorObject m => m
  | OtherValue _ => fallback
  end.

Definition set_error (e : option string) (r : Recorder) : Recorder :=
  {| isRecording := isRecording r; error := e;
     audioContext := audioContext r; processor := processor r;
     audioStream := audioStream r; onAudioData := onAudioData r;
     audioBuffer := audioBuffer r; nodes := nodes r |}.

(** The [catch] of [startRecording]; the error is rethrown to the
    caller. *)
Definition startRecording_failed (err : Thrown) (r : Recorder) : Recorder :=
  cleanup (set_error (Some (failure_text err "Failed to start recording")) r).

Definition stopRecording (r : Recorder) : Recorder := cleanup r.

Definition setAudioDataCallback (r : Recorder) : Recorder :=
  {| isRecording := isRecording r; error := error r;
     audioContext := audioContext r; processor := processor r;
     audioStream := audioStream r; onAudioData := true;
     audioBuffer := audioBuffer r; nodes := nodes r |}.

(** *** The [onaudioprocess] handler *)

Definition Qgtb (a b : Q) : bool := negb (Qle_bool a b).

Definition Math_max (a b : Q) : Q := if Qle_bool a b then b else a.

(** The first loop: the peak of the window. *)
Definition max_amplitude (inputData : list Q) : Q :=
  fold_left (fun maxAmplitude x => Math_max maxAmplitude (Qabs x))
            inputData 0%Q.

(** [maxAmplitude > 0 ? 1 / maxAmplitude : 1]. *)
Definition scale_of (maxAmplitude : Q) : Q :=
  if Qgtb maxAmplitude 0 then Number.to_number (1 / maxAmplitude) else 1%Q.

(** The second loop: [audioBuffer[bufferPosition++] = inputData[i] * scale].
    The product is a double, the store rounds it to a single.  A store past
    the end of a typed array is ignored. *)
Definition store_window (scale : Q) (inputData : list Q)
    (buf : list Q) (bufferPosition : nat) : list Q * nat :=
  fold_left
    (fun '(b, pos) x =>
       (<[pos := Number.Math_fround (Number.to_number (x * scale))]> b,
        S pos))
    inputData (buf, bufferPosition).

(** [Math.round]: to the nearest integer, halves upwards. *)
Definition Math_round (x : Q) : Z := Qfloor (x + (1 # 2)).

(** [Math.max(-32768, Math.min(32767, Math.round(x * 32768)))]. *)
Definition to_int16 (x : Q) : Z :=
  Z.max (-32768)
    (Z.min 32767 (Math_round (Number.to_number (x * 32768)))).

(** [pcmData]: reading a missing element gives [undefined], which an
    [Int16Array] stores as 0. *)
Definition pcm_of (buf : list Q) : list Z :=
  map (fun i => match buf !! i with
                | Some v => to_int16 v
                | None => 0
                end)
      (seq 0 BUFFER_SIZE).

(** [new Uint8Array(pcmData.buffer)]: two bytes per sample, low byte
    first. *)
Definition bytes_of (pcm : list Z) : list Z :=
  flat_map (fun v => let u := v mod 65536 in [u mod 256; u / 256]) pcm.

Definition chunk_of (buf : list Q) (ctx : option Z) : AudioData :=
  {| type := "chunk";
     data := btoa (bytes_of (pcm_of buf));
     sampleRate := match ctx with
                   | Some rate => if Z.eqb rate 0 then 48000 else rate
                   | None => 48000
                   end |}.

(** The writes of the handler of node [i]: its [bufferPosition] and the
    shared [audioBuffer]. *)
Definition with_buffer (r : Recorder) (i : nat) (buf : list Q) (pos : nat)
    : Recorder :=
  {| isRecording := isRecording r; error := error r;
     audioContext := audioContext r; processor := processor r;
     audioStream := audioStream r; onAudioData := onAudioData r;
     audioBuffer := Some buf;
     nodes := <[i := {| connected := true; bufferPosition := pos |}]>
                (nodes r) |}.

(** One capture window delivered to node [i]; [inputData] lists the
    samples of the channel, finite numbers (a window holding [NaN] or an
    infinity is outside the model).  Returns the new closure and the value
    handed to the callback, if the callback is invoked.  A node that was
    disconnected receives no windows. *)
Definition onaudioprocess (r : Recorder) (i : nat) (inputData : list Q)
    : Recorder * option AudioData :=
  match nodes r !! i with
  | Some {| connected := true; bufferPosition := bufferPosition |} =>
      match onAudioData r, audioBuffer r with
      | true, Some buf =>
          let maxAmplitude := max_amplitude inputData in
          if Qgtb maxAmplitude MIN_AMPLITUDE then
            let scale := scale_of maxAmplitude in
            let '(buf', pos') :=
              store_window scale inputData buf bufferPosition in
            if (BUFFER_SIZE <=? pos')%nat then
              (with_buffer r i (new_Float32Array BUFFER_SIZE) 0,
               Some (chunk_of buf' (audioContext r)))
            else (with_buffer r i buf' pos', None)
          else (r, None)
      | _, _ => (r, None)
      end
  | _ => (r, None)
  end.

End AudioRecorder.

(** ** useWebSocket.ts *)

Module TranscriptionSegment.

Record t := {
  text : string;
  speaker : string;
  start : Q;
  end_ : Q;
  absolute_start : Q;
  absolute_end : Q;
}.

End TranscriptionSegment.

(** [WebSocketMessage]: a [type] and eleven optional fields.  [JSON.parse]
    does not check [type] against the union of the declaration, so it is a
    string here. *)
Module WebSocketMessage.

Record t := {
  type : string;
  text : option string;
  timestamp : option Q;
  duration : option Q;
  segments : option (list TranscriptionSegment.t);
  session_id : option string;
  audio : option string;
  start_time : option Q;
  end_time : option Q;
  error : option string;
  status : option string;
}.

(** [{ type }] with every other field absent. *)
Definition of_type (ty : string) : t :=
  {| type := ty; text := None; timestamp := None; duration := None;
     segments := None; session_id := None; audio := None;
     start_time := None; end_time := None; error := None;
     status := None |}.

(** [{ type: 'status', status }]. *)
Definition of_status (st : string) : t :=
  {| type := "status"; text := None; timestamp := None; duration := None;
     segments := None; session_id := None; audio := None;
     start_time := None; end_time := None; error := None;
     status := Some st |}.

(** [{ type: 'audio_data', audio }]. *)
Definition audio_data (payload : string) : t :=
  {| type := "audio_data"; text := None; timestamp := None;
     duration := None; segments := None; session_id := None;
     audio := Some payload; start_time := None; end_time := None;
     error := None; status := None |}.

(** [{ type: 'play_audio', session_id, start_time, end_time }]. *)
Definition play_audio (sid : string) (from to : Q) : t :=
  {| type := "play_audio"; text := None; timestamp := None;
     duration := None; segments := None; session_id := Some sid;
     audio := None; start_time := Some from; end_time := Some to;
     error := None; status := None |}.

End WebSocketMessage.

Module WebSocket.

Inductive ReadyState := CONNECTING | OPEN | CLOSING | CLOSED.

Definition ReadyState_eqb (a b : ReadyState) : bool :=
  match a, b with
  | CONNECTING, CONNECTING | OPEN, OPEN
  | CLOSING, CLOSING | CLOSED, CLOSED => true
  | _, _ => false
  end.

(** The closure of [useWebSocket].  [sockets] lists the ready state of
    every [WebSocket] object created so far, in creation order, and [ws]
    is the variable of that name, pointing into [sockets].  [sent] is the
    log of the messages handed to [ws.send], oldest first. *)
Record Conn := {
  isConnected : bool;
  lastMessage : option WebSocketMessage.t;
  error : option string;
  ws : option nat;
  sockets : list ReadyState;
  sent : list WebSocketMessage.t;
}.

Definition init : Conn :=
  {| isConnected := false; lastMessage := None; error := None;
     ws := None; sockets := []; sent := [] |}.

Definition set_error (e : option string) (c : Conn) : Conn :=
  {| isConnected := isConnected c; lastMessage := lastMessage c;
     error := e; ws := ws c; sockets := sockets c; sent := sent c |}.

(** [connect], up to the promise it returns: [new WebSocket(url)] and the
    four handlers. *)
Definition connect (c : Conn) : Conn :=
  {| isConnected := isConnected c; lastMessage := lastMessage c;
     error := error c; ws := Some (length (sockets c));
     sockets := sockets c ++ [CONNECTING]; sent := sent c |}.

(** [connect] when the constructor throws: the promise is rejected with
    what was thrown. *)
Definition connect_threw (c : Conn) : Conn :=
  set_error (Some "Failed to connect to WebSocket") c.

(** [ws.onopen] of socket [n]; resolves the promise of its [connect]. *)
Definition onopen (n : nat) (c : Conn) : Conn :=
  {| isConnected := true; lastMessage := lastMessage c; error := None;
     ws := ws c; sockets := <[n := OPEN]> (sockets c); sent := sent c |}.

(** [ws.onclose] of socket [n]. *)
Definition onclose (n : nat) (c : Conn) : Conn :=
  {| isConnected := false; lastMessage := lastMessage c; error := error c;
     ws := None; sockets := <[n := CLOSED]> (sockets c); sent := sent c |}.

(** [ws.onerror]; rejects the promise of its [connect] with
    [connection_error]. *)
Definition onerror (c : Conn) : Conn :=
  set_error (Some "WebSocket connection error") c.

Definition connection_error : Thrown :=
  ErrorObject "WebSocket connection error".

(** [ws.onmessage]: [data] is [None] when [JSON.parse] throws. *)
Definition onmessage (data : option WebSocketMessage.t) (c : Conn) : Conn :=
  match data with
  | Some message =>
      {| isConnected := isConnected c; lastMessage := Some message;
         error := error c; ws := ws c; sockets := sockets c;
         sent := sent c |}
  | None => set_error (Some "Invalid message format") c
  end.

(** [ws.close()] on a socket. *)
Definition close (st : ReadyState) : ReadyState :=
  match st with
  | CLOSED => CLOSED
  | _ => CLOSING
  end.

Definition disconnect (c : Conn) : Conn :=
  match ws c with
  | Some n =>
      {| isConnected := isConnected c; lastMessage := lastMessage c;
         error := error c; ws := None;
         sockets := alter close n (sockets c); sent := sent c |}
  | None => c
  end.

(** [ws && ws.readyState === WebSocket.OPEN]. *)
Definition ws_open (c : Conn) : bool :=
  match ws c with
  | Some n =>
      match sockets c !! n with
      | Some st => ReadyState_eqb st OPEN
      | None => false
      end
  | None => false
  end.

Definition sendMessage (message : WebSocketMessage.t) (c : Conn) : Conn :=
  if ws_open c then
    {| isConnected := isConnected c; lastMessage := lastMessage c;
       error := error c; ws := ws c; sockets := sockets c;
       sent := sent c ++ [message] |}
  else set_error (Some "WebSocket is not connected") c.

(** [startRecording] once the connection stands: either [isConnected]
    held on entry or [await connect()] returned. *)
Definition startRecording_send (c : Conn) : Conn :=
  sendMessage (WebSocketMessage.of_status "start_recording") c.

Definition stopRecording (c : Conn) : Conn :=
  if isConnected c
  then sendMessage (WebSocketMessage.of_status "stop_recording") c
  else c.

End WebSocket.

(** ** RecordingInterface.vue *)

(** A transcript segment as the component holds it: an object.  The source
    compares segments with [===], so an object is its identity together with
    its fields; the fields are never written after creation. *)
Module Segment.

Record t := {
  identity : nat;
  fields : TranscriptionSegment.t;
}.

(** [a === b] on two segment objects. *)
Definition same (a b : t) : bool := Nat.eqb (identity a) (identity b).

End Segment.

(** [TranscriptionWithSession]. *)
Module Transcription.

Record t := {
  type : string;
  text : string;
  timestamp : Q;
  duration : Q;
  segments : list Segment.t;
  session_id : string;
}.

End Transcription.

(** The [<audio>] element behind the [audioPlayer] template ref. *)
Module AudioElement.

Record t := {
  src : option nat;
  paused : bool;
  currentTime : Q;
}.

Definition fresh : t := {| src := None; paused := true; currentTime := 0 |}.

Definition pause (a : t) : t :=
  {| src := src a; paused := true; currentTime := currentTime a |}.

Definition set_currentTime (x : Q) (a : t) : t :=
  {| src := src a; paused := paused a; currentTime := x |}.

(** [a.src = url; a.play()]: the new resource starts from the beginning. *)
Definition load_and_play (url : nat) (a : t) : t :=
  {| src := Some url; paused := false; currentTime := 0 |}.

End AudioElement.

Module UI.

(** A [toggleRecording] invocation waiting at one of its [await]s: for
    [connect()] on socket [n], for the 100 ms timer, or for
    [getUserMedia] inside [startAudioRecording]. *)
Inductive Suspended :=
| AwaitConnect (n : nat)
| AwaitSettle
| AwaitMic.

(** The state of one mounted component: the two composables, the five
    [ref]s of the script, and what the browser holds for it ([pending]
    invocations, the number of segment objects and of object URLs created
    so far, the object URLs revoked). *)
Record State := {
  recorder : AudioRecorder.Recorder;
  socket : WebSocket.Conn;
  transcriptions : list Transcription.t;
  error : option string;
  isRecordingSessionActive : bool;
  audioPlayer : option AudioElement.t;
  currentPlayingSegment : option Segment.t;
  pending : list Suspended;
  allocated : nat;
  objectURLs : nat;
  revoked : list nat;
}.

(** The state right after [setup]. *)
Definition init : State :=
  {| recorder := AudioRecorder.init; socket := WebSocket.init;
     transcriptions := []; error := None;
     isRecordingSessionActive := false; audioPlayer := None;
     currentPlayingSegment := None; pending := []; allocated := 0;
     objectURLs := 0; revoked := [] |}.

Definition isRecording (s : State) : bool :=
  AudioRecorder.isRecording (recorder s).
Definition recorderError (s : State) : option string :=
  AudioRecorder.error (recorder s).
Definition isConnected (s : State) : bool :=
  WebSocket.isConnected (socket s).
Definition lastMessage (s : State) : option WebSocketMessage.t :=
  WebSocket.lastMessage (socket s).
Definition wsError (s : State) : option string :=
  WebSocket.error (socket s).

Definition with_recorder (r : AudioRecorder.Recorder) (s : State) : State :=
  {| recorder := r; socket := socket s;
     transcriptions := transcriptions s; error := error s;
     isRecordingSessionActive := isRecordingSessionActive s;
     audioPlayer := audioPlayer s;
     currentPlayingSegment := currentPlayingSegment s;
     pending := pending s; allocated := allocated s;
     objectURLs := objectURLs s; revoked := revoked s |}.

Definition with_socket (c : WebSocket.Conn) (s : State) : State :=
  {| recorder := recorder s; socket := c;
     transcriptions := transcriptions s; error := error s;
     isRecordingSessionActive := isRecordingSessionActive s;
     audioPlayer := audioPlayer s;
     currentPlayingSegment := currentPlayingSegment s;
     pending := pending s; allocated := allocated s;
     objectURLs := objectURLs s; revoked := revoked s |}.

Definition with_error (e : option string) (s : State) : State :=
  {| recorder := recorder s; socket := socket s;
     transcriptions := transcriptions s; error := e;
     isRecordingSessionActive := isRecordingSessionActive s;
     audioPlayer := audioPlayer s;
     currentPlayingSegment := currentPlayingSegment s;
     pending := pending s; allocated := allocated s;
     objectURLs := objectURLs s; revoked := revoked s |}.

Definition with_active (b : bool) (s : State) : State :=
  {| recorder := recorder s; socket := socket s;
     transcriptions := transcriptions s; error := error s;
     isRecordingSessionActive := b;
     audioPlayer := audioPlayer s;
     currentPlayingSegment := currentPlayingSegment s;
     pending := pending s; allocated := allocated s;
     objectURLs := objectURLs s; revoked := revoked s |}.

Definition with_player (a : option AudioElement.t) (s : State) : State :=
  {| recorder := recorder s; socket := socket s;
     transcriptions := transcriptions s; error := error s;
     isRecordingSessionActive := isRecordingSessionActive s;
     audioPlayer := a;
     currentPlayingSegment := currentPlayingSegment s;
     pending := pending s; allocated := allocated s;
     objectURLs := objectURLs s; revoked := revoked s |}.

Definition with_current (c : option Segment.t) (s : State) : State :=
  {| recorder := recorder s; socket := socket s;
     transcriptions := transcriptions s; error := error s;
     isRecordingSessionActive := isRecordingSessionActive s;
     audioPlayer := audioPlayer s;
     currentPlayingSegment := c;
     pending := pending s; allocated := allocated s;
     objectURLs := objectURLs s; revoked := revoked s |}.

Definition with_pending (p : list Suspended) (s : State) : State :=
  {| recorder := recorder s; socket := socket s;
     transcriptions := transcriptions s; error := error s;
     isRecordingSessionActive := isRecordingSessionActive s;
     audioPlayer := audioPlayer s;
     currentPlayingSegment := currentPlayingSegment s;
     pending := p; allocated := allocated s;
     objectURLs := objectURLs s; revoked := revoked s |}.

(** The composables' functions, as the component names them. *)
Definition stopAudioRecording (s : State) : State :=
  with_recorder (AudioRecorder.stopRecording (recorder s)) s.
Definition stopWebSocketRecording (s : State) : State :=
  with_socket (WebSocket.stopRecording (socket s)) s.
Definition sendMessage (message : WebSocketMessage.t) (s : State) : State :=
  with_socket (WebSocket.sendMessage message (socket s)) s.

(** [watch([recorderError, wsError], ...)]: when the watchers are flushed,
    the callback runs if either source differs from its value at the
    previous flush ([before]). *)
Definition error_watch (before s : State) : State :=
  if bool_decide (recorderError before = recorderError s) &&
     bool_decide (wsError before = wsError s)
  then s
  else with_error (or_else (recorderError s) (wsError s)) s.

(** *** [toggleRecording] *)

(** The branch taken while [isRecording] holds. *)
Definition toggle_stop (s : State) : State :=
  with_active false (stopWebSocketRecording (stopAudioRecording s)).

(** The [catch] clause. *)
Definition toggle_catch (err : Thrown) (s : State) : State :=
  with_active false
    (stopWebSocketRecording
       (stopAudioRecording
          (with_error
             (Some (AudioRecorder.failure_text err
                      "Failed to toggle recording")) s))).

Definition suspend (k : Suspended) (s : State) : State :=
  with_pending (pending s ++ [k]) s.

(** From the return of [startWebSocketRecording] to the timer. *)
Definition toggle_announce (s : State) : State :=
  suspend AwaitSettle (sendMessage (WebSocketMessage.of_type "start_recording") s).

(** From the timer to [getUserMedia]. *)
Definition toggle_settled (s : State) : State :=
  suspend AwaitMic
    (with_recorder (AudioRecorder.startRecording_request (recorder s)) s).

(** The end of the [try] block, after [startAudioRecording] returned. *)
Definition toggle_armed (s : State) : State := with_active true s.

(** A handler or a stretch of one, followed by the flush of the
    watchers. *)
Definition flushed (f : State -> State) (s : State) : State :=
  error_watch s (f s).

Definition ws_connect (s : State) : State :=
  suspend (AwaitConnect (length (WebSocket.sockets (socket s))))
    (with_socket (WebSocket.connect (socket s)) s).
Definition ws_connect_threw (s : State) : State :=
  with_socket (WebSocket.connect_threw (socket s)) s.
Definition ws_startRecording_send (s : State) : State :=
  with_socket (WebSocket.startRecording_send (socket s)) s.

(** A click on the button.  [ctor] is what [new WebSocket(url)] throws,
    if it is reached and throws.  The watchers are flushed wherever the
    invocation yields. *)
Definition toggleRecording (ctor : option Thrown) (s : State) : State :=
  if isRecording s then flushed toggle_stop s
  else if isConnected s then
    flushed toggle_announce (flushed ws_startRecording_send s)
  else
    match ctor with
    | None => ws_connect s
    | Some err => flushed (toggle_catch err) (flushed ws_connect_threw s)
    end.

(** *** The audio callback installed by [onMounted] *)

Definition audioDataCallback (d : AudioRecorder.AudioData) (s : State)
    : State :=
  if isConnected s && isRecording s && isRecordingSessionActive s &&
     String.eqb (AudioRecorder.type d) "chunk"
  then sendMessage (WebSocketMessage.audio_data (AudioRecorder.data d)) s
  else s.

(** *** Playback *)

Definition stopPlayback (s : State) : State :=
  with_current None
    (with_player
       (AudioElement.set_currentTime 0 <$>
          (AudioElement.pause <$> audioPlayer s)) s).

Definition onPlaybackEnded (s : State) : State := with_current None s.

Definition isPlayingSegment (segment : Segment.t) (s : State) : bool :=
  match currentPlayingSegment s with
  | Some c => Segment.same c segment
  | None => false
  end.

(** Nothing inside the [try] block throws, so its [catch] is left out. *)
Definition playSegment (sessionId : string) (segment : Segment.t)
    (s : State) : State :=
  if isPlayingSegment segment s then stopPlayback s
  else
    sendMessage
      (WebSocketMessage.play_audio sessionId
         (TranscriptionSegment.absolute_start (Segment.fields segment))
         (TranscriptionSegment.absolute_end (Segment.fields segment)))
      (with_current (Some segment) s).

(** *** The watcher of [lastMessage] *)

(** What the browser answers during the callback: [Date.now()], and what
    [atob] throws on the audio payload if it rejects it. *)
Record Env := {
  now : Q;
  atob_throws : option Thrown;
}.

(** The object literal built by the [map] callback. *)
Definition copy_fields (seg : TranscriptionSegment.t)
    : TranscriptionSegment.t :=
  {| TranscriptionSegment.text := TranscriptionSegment.text seg;
     TranscriptionSegment.speaker := TranscriptionSegment.speaker seg;
     TranscriptionSegment.start := TranscriptionSegment.start seg;
     TranscriptionSegment.end_ := TranscriptionSegment.end_ seg;
     TranscriptionSegment.absolute_start :=
       TranscriptionSegment.absolute_start seg;
     TranscriptionSegment.absolute_end :=
       TranscriptionSegment.absolute_end seg |}.

(** [message.segments?.map(...) || []]: one new object per segment. *)
Definition copy_segments (base : nat)
    (segs : option (list TranscriptionSegment.t)) : list Segment.t :=
  imap (fun i seg => {| Segment.identity := base + i;
                        Segment.fields := copy_fields seg |})
       (default [] segs).

Definition on_transcription (env : Env) (message : WebSocketMessage.t)
    (s : State) : State :=
  match WebSocketMessage.text message, WebSocketMessage.session_id message with
  | Some text, Some session_id =>
      if negb (String.eqb text "") && negb (String.eqb session_id "") then
        let segs := copy_segments (allocated s)
                      (WebSocketMessage.segments message) in
        {| recorder := recorder s; socket := socket s;
           transcriptions :=
             transcriptions s ++
             [{| Transcription.type := "transcription";
                 Transcription.text := text;
                 Transcription.timestamp := now env;
                 Transcription.duration := 0;
                 Transcription.segments := segs;
                 Transcription.session_id := session_id |}];
           error := error s;
           isRecordingSessionActive := isRecordingSessionActive s;
           audioPlayer := audioPlayer s;
           currentPlayingSegment := currentPlayingSegment s;
           pending := pending s;
           allocated := allocated s + length segs;
           objectURLs := objectURLs s; revoked := revoked s |}
      else s
  | _, _ => s
  end.

Definition on_audio_segment (env : Env) (message : WebSocketMessage.t)
    (s : State) : State :=
  match audioPlayer s with
  | Some player =>
      if truthy (WebSocketMessage.audio message) then
        match atob_throws env with
        | Some err =>
            stopPlayback
              (with_error
                 (Some (AudioRecorder.failure_text err
                          "Failed to process audio segment")) s)
        | None =>
            {| recorder := recorder s; socket := socket s;
               transcriptions := transcriptions s; error := error s;
               isRecordingSessionActive := isRecordingSessionActive s;
               audioPlayer :=
                 Some (AudioElement.load_and_play (objectURLs s) player);
               currentPlayingSegment := currentPlayingSegment s;
               pending := pending s; allocated := allocated s;
               objectURLs := S (objectURLs s);
               revoked := match AudioElement.src player with
                          | Some old => revoked s ++ [old]
                          | None => revoked s
                          end |}
        end
      else with_error (Some "Missing audio data or player element") s
  | None => with_error (Some "Missing audio data or player element") s
  end.

Definition NO_SESSION : string := "No active recording session".

Definition on_error (message : WebSocketMessage.t) (s : State) : State :=
  let s1 := with_error (or_else (WebSocketMessage.error message)
                          (Some "Unknown error occurred")) s in
  match WebSocketMessage.error message with
  | Some text => if includes NO_SESSION text then with_active false s1 else s1
  | None => s1
  end.

Definition on_status (message : WebSocketMessage.t) (s : State) : State :=
  match WebSocketMessage.status message with
  | Some st =>
      if String.eqb st "recording_started" then with_active true s
      else if String.eqb st "recording_stopped" then with_active false s
      else s
  | None => s
  end.

(** The callback of [watch(lastMessage, ...)] on a non-null message. *)
Definition lastMessage_watch (env : Env) (message : WebSocketMessage.t)
    (s : State) : State :=
  let ty := WebSocketMessage.type message in
  if String.eqb ty "transcription" then on_transcription env message s
  else if String.eqb ty "audio_segment" then on_audio_segment env message s
  else if String.eqb ty "error" then on_error message s
  else if String.eqb ty "status" then on_status message s
  else s.

(** The rejection handler of [audioPlayer.value.play()]. *)
Definition play_rejected (err : Thrown) (s : State) : State :=
  stopPlayback
    (with_error
       (Some ("Failed to play audio: " +:+
              match err with
              | ErrorObject m => m
              | OtherValue shown => shown
              end)) s).

Definition onMounted (s : State) : State :=
  with_player (Some AudioElement.fresh)
    (with_recorder (AudioRecorder.setAudioDataCallback (recorder s)) s).

End UI.

(** ** The event loop

    Everything that can happen to a mounted component, one event per task
    of the browser.  [step] returns [None] for an event that cannot occur
    in the state at hand (a message on a socket that is not open, a timer
    nobody waits for). *)

Module Loop.

Import UI.

Inductive Event :=
| Mounted
| Click (ctor : option Thrown)
| SocketOpen (n : nat)
| SocketError (n : nat)
| SocketClose (n : nat)
| SocketMessage (n : nat) (data : option WebSocketMessage.t) (env : Env)
| TimerFired
| MicGranted (i : nat)
| MicFailed (i : nat) (err : Thrown)
| AudioProcess (node : nat) (inputData : list Q)
| PlaySegment (sessionId : string) (segment : Segment.t)
| StopPlayback
| PlaybackProgress (position : Q)
| PlaybackEnded
| PlayRejected (err : Thrown).

Definition Suspended_eqb (a b : Suspended) : bool :=
  match a, b with
  | AwaitConnect n, AwaitConnect m => Nat.eqb n m
  | AwaitSettle, AwaitSettle | AwaitMic, AwaitMic => true
  | _, _ => false
  end.

(** The pending invocations without the oldest one waiting at [k]. *)
Fixpoint resume (k : Suspended) (p : list Suspended)
    : option (list Suspended) :=
  match p with
  | [] => None
  | k' :: rest =>
      if Suspended_eqb k k' then Some rest
      else cons k' <$> resume k rest
  end.

Definition socket_state (n : nat) (s : State) : option WebSocket.ReadyState :=
  WebSocket.sockets (socket s) !! n.

Definition on_socket (f : WebSocket.Conn -> WebSocket.Conn) (s : State)
    : State :=
  with_socket (f (socket s)) s.

Definition on_recorder (f : AudioRecorder.Recorder -> AudioRecorder.Recorder)
    (s : State) : State :=
  with_recorder (f (recorder s)) s.

Definition step (e : Event) (s : State) : option State :=
  match e with
  | Mounted =>
      match audioPlayer s with
      | None => Some (onMounted s)
      | Some _ => None
      end
  | Click ctor => Some (toggleRecording ctor s)
  | SocketOpen n =>
      match socket_state n s with
      | Some WebSocket.CONNECTING =>
          let s1 := flushed (on_socket (WebSocket.onopen n)) s in
          match resume (AwaitConnect n) (pending s1) with
          | Some rest =>
              Some (flushed toggle_announce
                      (flushed ws_startRecording_send
                         (with_pending rest s1)))
          | None => Some s1
          end
      | _ => None
      end
  | SocketError n =>
      match socket_state n s with
      | Some WebSocket.CLOSED | None => None
      | Some _ =>
          let s1 := flushed (on_socket WebSocket.onerror) s in
          match resume (AwaitConnect n) (pending s1) with
          | Some rest =>
              Some (flushed (toggle_catch WebSocket.connection_error)
                      (with_pending rest s1))
          | None => Some s1
          end
      end
  | SocketClose n =>
      match socket_state n s with
      | Some WebSocket.CLOSED | None => None
      | Some _ => Some (flushed (on_socket (WebSocket.onclose n)) s)
      end
  | SocketMessage n data env =>
      match socket_state n s with
      | Some WebSocket.OPEN =>
          let s1 := on_socket (WebSocket.onmessage data) s in
          Some (error_watch s
                  match data with
                  | Some message => lastMessage_watch env message s1
                  | None => s1
                  end)
      | _ => None
      end
  | TimerFired =>
      match resume AwaitSettle (pending s) with
      | Some rest => Some (toggle_settled (with_pending rest s))
      | None => None
      end
  | MicGranted i =>
      match pending s !! i with
      | Some AwaitMic =>
          Some (flushed toggle_armed
                  (flushed (on_recorder AudioRecorder.startRecording_granted)
                     (with_pending (delete i (pending s)) s)))
      | _ => None
      end
  | MicFailed i err =>
      match pending s !! i with
      | Some AwaitMic =>
          Some (flushed (toggle_catch err)
                  (flushed
                     (on_recorder (AudioRecorder.startRecording_failed err))
                     (with_pending (delete i (pending s)) s)))
      | _ => None
      end
  | AudioProcess node inputData =>
      match AudioRecorder.nodes (recorder s) !! node with
      | Some {| AudioRecorder.connected := true |} =>
          let '(r, out) :=
            AudioRecorder.onaudioprocess (recorder s) node inputData in
          match out with
          | Some d => Some (flushed (audioDataCallback d) (with_recorder r s))
          | None => Some (with_recorder r s)
          end
      | _ => None
      end
  | PlaySegment sessionId segment =>
      Some (flushed (playSegment sessionId segment) s)
  | StopPlayback => Some (stopPlayback s)
  | PlaybackProgress position =>
      match audioPlayer s with
      | Some player =>
          if AudioElement.paused player then None
          else Some (with_player
                       (Some (AudioElement.set_currentTime position player)) s)
      | None => None
      end
  | PlaybackEnded =>
      match audioPlayer s with
      | Some _ => Some (onPlaybackEnded s)
      | None => None
      end
  | PlayRejected err =>
      match audioPlayer s with
      | Some _ => Some (play_rejected err s)
      | None => None
      end
  end.

(** A sequence of events, oldest first. *)
Fixpoint run (trace : list Event) (s : State) : option State :=
  match trace with
  | [] => Some s
  | e :: rest =>
      match step e s with
      | Some s' => run rest s'
      | None => None
      end
  end.

Definition reachable (s : State) : Prop :=
  exists trace, run trace init = Some s.

End Loop.

(** ** Vocabulary of the properties *)

(** [x] is an element a [Float32Array] can hold: a single of finite
    size. *)
Definition is_float32 (x : Q) : bool :=
  Qeq_bool (Number.Math_fround x) x &&
  AudioRecorder.Qgtb (2 ^ 128) (Qabs x).



(** A recorder armed by a granted [startRecording], callback installed. *)
Definition armed_recorder : AudioRecorder.Recorder :=
  AudioRecorder.startRecording_granted
    (AudioRecorder.setAudioDataCallback AudioRecorder.init).

(** A full capture window holding one value throughout. *)
Definition constant_window (x : Q) : list Q :=
  replicate AudioRecorder.BUFFER_SIZE x.

(** The messages handed to the socket so far. *)
Definition sent (s : UI.State) : list WebSocketMessage.t :=
  WebSocket.sent (UI.socket s).

(** [needle] occurs in [s]. *)
Definition contains (needle s : string) : Prop :=
  exists l r, s = l +:+ needle +:+ r.

(** The state a trace leads to from the initial one. *)
Definition after (trace : list Loop.Event) : UI.State :=
  default UI.init (Loop.run trace UI.init).

(** Mount, click, connection established: the invocation waits for the
    100 ms timer, the microphone is not yet requested. *)
Definition announced : list Loop.Event :=
  [Loop.Mounted; Loop.Click None; Loop.SocketOpen 0].

(** A whole start sequence: ... timer, microphone granted. *)
Definition started : list Loop.Event :=
  announced ++ [Loop.TimerFired; Loop.MicGranted 0].

Definition quiet : UI.Env := {| UI.now := 0; UI.atob_throws := None |}.

Definition inbound_status (st : string) : Loop.Event :=
  Loop.SocketMessage 0 (Some (WebSocketMessage.of_status st)) quiet.

(** A frame as [onaudioprocess] emits it. *)
Definition full_scale_frame : AudioRecorder.AudioData :=
  AudioRecorder.chunk_of (constant_window 1) (Some 48000).

(** [{ type: 'error', error }], as the backend sends it. *)
Definition inbound_error (text : string) : WebSocketMessage.t :=
  {| WebSocketMessage.type := "error"; WebSocketMessage.text := None;
     WebSocketMessage.timestamp := None; WebSocketMessage.duration := None;
     WebSocketMessage.segments := None; WebSocketMessage.session_id := None;
     WebSocketMessage.audio := None; WebSocketMessage.start_time := None;
     WebSocketMessage.end_time := None; WebSocketMessage.error := Some text;
     WebSocketMessage.status := None |}.

(** The segment and the [transcription] message of the scenario: "hello",
    said by SPEAKER_1 from 0 to 1, in session "s1". *)
Definition hello_segment : TranscriptionSegment.t :=
  {| TranscriptionSegment.text := "hello";
     TranscriptionSegment.speaker := "SPEAKER_1";
     TranscriptionSegment.start := 0; TranscriptionSegment.end_ := 1;
     TranscriptionSegment.absolute_start := 0;
     TranscriptionSegment.absolute_end := 1 |}.

Definition hello_message : WebSocketMessage.t :=
  {| WebSocketMessage.type := "transcription";
     WebSocketMessage.text := Some "hello";
     WebSocketMessage.timestamp := None; WebSocketMessage.duration := None;
     WebSocketMessage.segments := Some [hello_segment];
     WebSocketMessage.session_id := Some "s1";
     WebSocketMessage.audio := None; WebSocketMessage.start_time := None;
     WebSocketMessage.end_time := None; WebSocketMessage.error := None;
     WebSocketMessage.status := None |}.

Definition inbound_hello : Loop.Event :=
  Loop.SocketMessage 0 (Some hello_message) quiet.

(** The first and the second object the watcher creates for
    [hello_segment]. *)
Definition hello_object (identity : nat) : Segment.t :=
  {| Segment.identity := identity; Segment.fields := hello_segment |}.

(** The scenario's transcript has arrived once, respectively twice, during
    a recording. *)
Definition transcribed : list Loop.Event := started ++ [inbound_hello].

Definition transcribed_twice : list Loop.Event :=
  started ++ [inbound_hello; inbound_hello].

Definition click_hello (identity : nat) : Loop.Event :=
  Loop.PlaySegment "s1" (hello_object identity).

(** ** Vocabulary of the further properties *)


(** The window as the store loop writes it: every sample times the
    reciprocal of the peak, both operations rounded, as a single. *)
Definition normalized (inputData : list Q) : list Q :=
  map (fun x =>
         Number.Math_fround
           (Number.to_number
              (x * Number.to_number (1 / AudioRecorder.max_amplitude inputData))))
      inputData.

(** What holds of the recorder closure between two events: [isRecording]
    tells whether the device graph is held, whole or not at all; the
    variable [processor] points at a connected node; the accumulation
    buffer has the frame size and every node's position is inside it. *)
Definition recorder_ok (r : AudioRecorder.Recorder) : Prop :=
  (AudioRecorder.isRecording r = true ->
     is_Some (AudioRecorder.processor r) /\
     is_Some (AudioRecorder.audioContext r) /\
     AudioRecorder.audioStream r = true /\
     is_Some (AudioRecorder.audioBuffer r)) /\
  (AudioRecorder.isRecording r = false ->
     AudioRecorder.processor r = None /\
     AudioRecorder.audioContext r = None /\
     AudioRecorder.audioStream r = false /\
     AudioRecorder.audioBuffer r = None) /\
  (forall i, AudioRecorder.processor r = Some i ->
     exists pos, AudioRecorder.nodes r !! i =
       Some {| AudioRecorder.connected := true;
               AudioRecorder.bufferPosition := pos |}) /\
  (forall buf, AudioRecorder.audioBuffer r = Some buf ->
     length buf = AudioRecorder.BUFFER_SIZE) /\
  Forall (fun n => (AudioRecorder.bufferPosition n <
                    AudioRecorder.BUFFER_SIZE)%nat)
         (AudioRecorder.nodes r).

(** The messages the client itself builds. *)
Definition client_message (m : WebSocketMessage.t) : Prop :=
  m = WebSocketMessage.of_status "start_recording" \/
  m = WebSocketMessage.of_status "stop_recording" \/
  m = WebSocketMessage.of_type "start_recording" \/
  (exists payload, m = WebSocketMessage.audio_data payload) \/
  (exists sid from to, m = WebSocketMessage.play_audio sid from to).

(** The segment objects of the transcript history, in display order. *)
Definition segments_of (groups : list Transcription.t) : list Segment.t :=
  concat (Transcription.segments <$> groups).

(** The object URL loaded in the player, if any; and the URLs accounted
    for: those revoked, then the loaded one. *)
Definition loaded_url (s : UI.State) : list nat :=
  match UI.audioPlayer s with
  | Some player => option_list (AudioElement.src player)
  | None => []
  end.

Definition accounted_urls (s : UI.State) : list nat :=
  UI.revoked s ++ loaded_url s.

(** How a later state relates to an earlier one: the log of sent messages
    grew by client messages; the history grew by groups whose segment
    objects took the next identities; the object URLs created since are
    accounted for, in order. *)
Definition evolves (s s' : UI.State) : Prop :=
  (exists new, sent s' = sent s ++ new /\ Forall client_message new) /\
  (exists groups,
     UI.transcriptions s' = UI.transcriptions s ++ groups /\
     Segment.identity <$> segments_of groups =
       seq (UI.allocated s) (UI.allocated s' - UI.allocated s)) /\
  (UI.allocated s <= UI.allocated s')%nat /\
  accounted_urls s' =
    accounted_urls s ++ seq (UI.objectURLs s) (UI.objectURLs s' - UI.objectURLs s) /\
  (UI.objectURLs s <= UI.objectURLs s')%nat.

(** [{ type: 'audio_segment', session_id, audio, start_time, end_time }],
    the answer to a [play_audio] request for the scenario's segment. *)
Definition hello_audio : WebSocketMessage.t :=
  {| WebSocketMessage.type := "audio_segment";
     WebSocketMessage.text := None; WebSocketMessage.timestamp := None;
     WebSocketMessage.duration := None; WebSocketMessage.segments := None;
     WebSocketMessage.session_id := Some "s1";
     WebSocketMessage.audio := Some "UklGRg==";
     WebSocketMessage.start_time := Some 0%Q;
     WebSocketMessage.end_time := Some 1%Q;
     WebSocketMessage.error := None; WebSocketMessage.status := None |}.

Definition inbound_audio : Loop.Event :=
  Loop.SocketMessage 0 (Some hello_audio) quiet.

(** The transcript arrived twice; its first segment was played, then its
    second. *)
Definition played_twice : list Loop.Event :=
  transcribed_twice ++
  [click_hello 0; inbound_audio; click_hello 1; inbound_audio].




(** The recorder runs no other node than the one the variable
    [processor] names: no earlier pipeline was left behind. *)
Definition single_pipeline (r : AudioRecorder.Recorder) : Prop :=
  forall j node,
    AudioRecorder.nodes r !! j = Some node ->
    AudioRecorder.connected node = true ->
    AudioRecorder.processor r = Some j.

(** Two clicks on Start before the first timer fires: both invocations
    run to the end, each building a pipeline of its own. *)
Definition started_twice : list Loop.Event :=
  announced ++
  [Loop.Click None; Loop.TimerFired; Loop.TimerFired;
   Loop.MicGranted 0; Loop.MicGranted 0].

(** * Properties *)

(** ** Rounding *)

Section Rounding.

Import Number.
Local Open Scope Q_scope.

Lemma round_to_comp fmt a b : a == b -> round_to fmt a = round_to fmt b.
Proof.
  intros E. unfold round_to. rewrite (Qred_complete a b E). reflexivity.
Qed.

Lemma round_half_even_comp a b :
  a == b -> round_half_even a = round_half_even b.
Proof.
  intros E. unfold round_half_even. rewrite (Qfloor_comp a b E).
  assert (a - inject_Z (Qfloor b) == b - inject_Z (Qfloor b)) as E'
    by (rewrite E; reflexivity).
  rewrite E'. reflexivity.
Qed.

Lemma two_neq_0 : ~ 2 == 0.
Proof. discriminate. Qed.

Lemma pow2_pos e : 0 < 2 ^ e.
Proof. apply Qpower_0_lt. reflexivity. Qed.

(** [2 ^ (a - b)] as a fraction of two integers. *)
Lemma pow2_frac (a b : Z) :
  (0 <= a)%Z -> (0 <= b)%Z -> 2 ^ (a - b) == (2 ^ a)%Z # Z.to_pos (2 ^ b)%Z.
Proof.
  intros Ha Hb. rewrite Qpower_minus by apply two_neq_0.
  rewrite (Qmake_Qdiv (2 ^ a) (Z.to_pos (2 ^ b))).
  rewrite Z2Pos.id by (apply Z.pow_pos_nonneg; lia).
  rewrite !Zpower_Qpower by assumption. reflexivity.
Qed.

Lemma ilog2_spec q : 0 < q -> 2 ^ ilog2 q <= q /\ q < 2 ^ (ilog2 q + 1).
Proof.
  intros Hq. destruct q as [n d]. unfold ilog2. simpl Qnum. simpl Qden.
  assert (0 < n)%Z as Hn by (unfold Qlt in Hq; simpl in Hq; lia).
  pose proof (Z.log2_spec n Hn) as [Hn1 Hn2].
  pose proof (Z.log2_spec (Zpos d) ltac:(lia)) as [Hd1 Hd2].
  pose proof (Z.log2_nonneg n) as Ha.
  pose proof (Z.log2_nonneg (Zpos d)) as Hb.
  set (a := Z.log2 n) in *. set (b := Z.log2 (Zpos d)) in *.
  assert (0 < 2 ^ a)%Z as Hpa by (apply Z.pow_pos_nonneg; lia).
  assert (0 < 2 ^ b)%Z as Hpb by (apply Z.pow_pos_nonneg; lia).
  destruct (Qle_bool (2 ^ (a - b)) (n # d)) eqn:E.
  - split; [apply Qle_bool_iff, E|].
    replace (a - b + 1)%Z with ((a + 1) - b)%Z by lia.
    rewrite pow2_frac by lia. unfold Qlt. simpl.
    rewrite Z2Pos.id by lia.
    replace (2 ^ Z.succ a)%Z with (2 ^ (a + 1))%Z in Hn2 by (f_equal; lia).
    nia.
  - replace (a - b - 1 + 1)%Z with (a - b)%Z by lia. split.
    + replace (a - b - 1)%Z with (a - (b + 1))%Z by lia.
      rewrite pow2_frac by lia. unfold Qle. simpl.
      assert (0 < 2 ^ (b + 1))%Z by (apply Z.pow_pos_nonneg; lia).
      rewrite Z2Pos.id by lia.
      replace (2 ^ Z.succ b)%Z with (2 ^ (b + 1))%Z in Hd2 by (f_equal; lia).
      nia.
    + apply Qnot_le_lt. intros H. apply Qle_bool_iff in H. congruence.
Qed.

Lemma ilog2_unique q e : 2 ^ e <= q -> q < 2 ^ (e + 1) -> ilog2 q = e.
Proof.
  intros H1 H2.
  assert (0 < q) as Hq by (eapply Qlt_le_trans; [apply (pow2_pos e) | exact H1]).
  destruct (ilog2_spec q Hq) as [H3 H4].
  assert (ilog2 q < e + 1)%Z.
  { apply (Qpower_lt_compat_l_inv 2); [|reflexivity].
    eapply Qle_lt_trans; eassumption. }
  assert (e < ilog2 q + 1)%Z.
  { apply (Qpower_lt_compat_l_inv 2); [|reflexivity].
    eapply Qle_lt_trans; eassumption. }
  lia.
Qed.

Lemma ilog2_lower q e : 2 ^ e <= q -> (e <= ilog2 q)%Z.
Proof.
  intros H.
  assert (0 < q) as Hq by (eapply Qlt_le_trans; [apply (pow2_pos e) | exact H]).
  destruct (ilog2_spec q Hq) as [_ H4].
  assert (e < ilog2 q + 1)%Z; [|lia].
  apply (Qpower_lt_compat_l_inv 2); [|reflexivity].
  eapply Qle_lt_trans; eassumption.
Qed.


Lemma ilog2_comp a b : 0 < a -> a == b -> ilog2 a = ilog2 b.
Proof.
  intros Ha E. destruct (ilog2_spec a Ha) as [H1 H2].
  symmetry. apply ilog2_unique; rewrite <- E; assumption.
Qed.


Lemma Qfloor_bounds u :
  inject_Z (Qfloor u) <= u /\ u < inject_Z (Qfloor u) + 1.
Proof.
  split; [apply Qfloor_le|].
  pose proof (Qlt_floor u) as H. rewrite inject_Z_plus in H. exact H.
Qed.

(** [round_half_even u] is an integer nearest to [u], and the even one of
    the two when [u] lies halfway. *)
Lemma round_half_even_spec u :
  - (1 # 2) <= inject_Z (round_half_even u) - u <= 1 # 2 /\
  (inject_Z (round_half_even u) - u == 1 # 2 \/
   inject_Z (round_half_even u) - u == - (1 # 2) ->
   Z.even (round_half_even u) = true).
Proof.
  unfold round_half_even.
  destruct (Qfloor_bounds u) as [H1 H2]. set (f := Qfloor u) in *.
  destruct (Qcompare_spec (u - inject_Z f) (1 # 2)) as [E | E | E].
  - destruct (Z.even f) eqn:Hf.
    + split; [lra|]. intros _. exact Hf.
    + rewrite inject_Z_plus. change (inject_Z 1) with 1. split; [lra|]. intros _.
      rewrite Z.even_add, Hf. reflexivity.
  - split; [lra|]. intros [H | H]; lra.
  - rewrite inject_Z_plus. change (inject_Z 1) with 1.
    split; [lra|]. intros [H | H]; lra.
Qed.

Lemma round_half_even_unique u r :
  - (1 # 2) <= inject_Z r - u <= 1 # 2 ->
  (inject_Z r - u == 1 # 2 \/ inject_Z r - u == - (1 # 2) ->
   Z.even r = true) ->
  round_half_even u = r.
Proof.
  intros Hr He.
  destruct (round_half_even_spec u) as [Hs Hes].
  set (s := round_half_even u) in *.
  assert (inject_Z (s - r) <= 1) as Hle.
  { unfold Zminus. rewrite inject_Z_plus, inject_Z_opp. lra. }
  assert (inject_Z (r - s) <= 1) as Hge.
  { unfold Zminus. rewrite inject_Z_plus, inject_Z_opp. lra. }
  change 1 with (inject_Z 1) in Hle, Hge.
  rewrite <- Zle_Qle in Hle, Hge.
  destruct (Z.eq_dec s r) as [E | Hne]; [exact E | exfalso].
  assert (s = r + 1 \/ r = s + 1)%Z as [E | E] by lia.
  - assert (inject_Z s == inject_Z r + 1) as Eq
      by (rewrite E, inject_Z_plus; reflexivity).
    assert (Z.even s = true) by (apply Hes; left; lra).
    assert (Z.even r = true) by (apply He; right; lra).
    rewrite E, Z.even_add in *. destruct (Z.even r); discriminate.
  - assert (inject_Z r == inject_Z s + 1) as Eq
      by (rewrite E, inject_Z_plus; reflexivity).
    assert (Z.even s = true) by (apply Hes; right; lra).
    assert (Z.even r = true) by (apply He; left; lra).
    rewrite E, Z.even_add in *. destruct (Z.even s); discriminate.
Qed.

Lemma round_half_even_opp u :
  round_half_even (- u) = (- round_half_even u)%Z.
Proof.
  destruct (round_half_even_spec u) as [Hs Hes].
  apply round_half_even_unique.
  - rewrite inject_Z_opp. lra.
  - rewrite inject_Z_opp, Z.even_opp. intros [H | H]; apply Hes; [right | left]; lra.
Qed.

(** The number a non-zero [t] is rounded to, by its exponent. *)
Lemma round_to_unfold fmt t :
  ~ t == 0 ->
  round_to fmt t ==
  inject_Z (round_half_even
              (t / 2 ^ Z.max (ilog2 (Qabs t) - precision fmt + 1) (emin fmt))) *
  2 ^ Z.max (ilog2 (Qabs t) - precision fmt + 1) (emin fmt).
Proof.
  intros Hne. unfold round_to. cbv zeta.
  assert (Qeq_bool (Qred t) 0 = false) as ->.
  { destruct (Qeq_bool (Qred t) 0) eqn:E; [|reflexivity].
    apply Qeq_bool_iff in E. rewrite Qred_correct in E. contradiction. }
  assert (0 < Qabs t) as Hpos.
  { destruct (Qlt_le_dec 0 (Qabs t)) as [H | H]; [exact H|].
    exfalso. apply Hne. apply Qabs_Qle_condition in H. lra. }
  assert (ilog2 (Qabs (Qred t)) = ilog2 (Qabs t)) as ->.
  { apply ilog2_comp; rewrite Qred_correct; [exact Hpos | reflexivity]. }
  set (e := Z.max (ilog2 (Qabs t) - precision fmt + 1) (emin fmt)).
  assert (round_half_even (Qred t / 2 ^ e) = round_half_even (t / 2 ^ e))
    as -> by (apply round_half_even_comp; rewrite Qred_correct; reflexivity).
  apply Qred_correct.
Qed.

(** Rounding is odd. *)
Lemma round_to_opp fmt t : round_to fmt (- t) == - round_to fmt t.
Proof.
  destruct (Qeq_dec t 0) as [E | Hne].
  - rewrite (round_to_comp fmt (- t) 0) by (rewrite E; reflexivity).
    rewrite (round_to_comp fmt t 0) by exact E. reflexivity.
  - rewrite !round_to_unfold; [| exact Hne | intros E; apply Hne; lra].
    assert (ilog2 (Qabs (- t)) = ilog2 (Qabs t)) as ->.
    { apply ilog2_comp; [|apply Qabs_opp]. rewrite Qabs_opp.
      destruct (Qlt_le_dec 0 (Qabs t)) as [H | H]; [exact H|].
      exfalso. apply Hne. apply Qabs_Qle_condition in H. lra. }
    set (e := Z.max (ilog2 (Qabs t) - precision fmt + 1) (emin fmt)).
    assert (round_half_even (- t / 2 ^ e) = (- round_half_even (t / 2 ^ e))%Z)
      as ->.
    { rewrite <- round_half_even_opp. apply round_half_even_comp.
      unfold Qdiv. ring. }
    rewrite inject_Z_opp. ring.
Qed.

(** In the normal range the relative error of rounding is at most
    [2^-precision]. *)
Lemma round_to_error fmt t :
  2 ^ (emin fmt + precision fmt - 1) <= Qabs t ->
  Qabs (round_to fmt t - t) <= Qabs t * 2 ^ (- precision fmt).
Proof.
  intros Hn.
  assert (0 < Qabs t) as Hpos
    by (eapply Qlt_le_trans; [apply pow2_pos | exact Hn]).
  assert (~ t == 0) as Hne.
  { intros E. rewrite E in Hpos. discriminate. }
  rewrite round_to_unfold by exact Hne.
  pose proof (ilog2_lower _ _ Hn) as Hl.
  rewrite Z.max_l by lia.
  destruct (ilog2_spec _ Hpos) as [Hlow _].
  set (l := ilog2 (Qabs t)) in *.
  destruct (round_half_even_spec (t / 2 ^ (l - precision fmt + 1))) as [[H1 H2] _].
  set (r := inject_Z (round_half_even (t / 2 ^ (l - precision fmt + 1)))) in *.
  assert (2 ^ (l - precision fmt + 1) == 2 * (2 ^ l * 2 ^ (- precision fmt)))
    as Ee.
  { replace (l - precision fmt + 1)%Z with (1 + (l + - precision fmt))%Z by lia.
    rewrite !Qpower_plus by apply two_neq_0. reflexivity. }
  pose proof (pow2_pos (l - precision fmt + 1)) as He.
  pose proof (pow2_pos (- precision fmt)) as Hp.
  revert H1 H2 Ee He Hp Hlow.
  generalize (2 ^ (l - precision fmt + 1)) (2 ^ l) (2 ^ (- precision fmt)).
  intros E L P H1 H2 Ee He Hp Hlow.
  assert (r * E - t == (r - t / E) * E) as -> by (field; lra).
  rewrite Qabs_Qmult, (Qabs_pos E) by lra.
  apply Qle_trans with ((1 # 2) * E).
  - apply Qmult_le_compat_r; [|lra]. apply Qabs_Qle_condition. lra.
  - rewrite Ee. 
    assert ((1 # 2) * (2 * (L * P)) == L * P) as -> by ring.
    apply Qmult_le_compat_r; lra.
Qed.

(** A number close to 1 is stored as 1. *)
Lemma Math_fround_near_one t :
  1 - (1 # 33554432) <= t -> t <= 1 + (1 # 33554432) -> Math_fround t == 1.
Proof.
  intros Hl Hu. unfold Math_fround.
  rewrite round_to_unfold by lra.
  assert (Qabs t == t) as Habs by (apply Qabs_pos; lra).
  destruct (Qlt_le_dec t 1) as [Hlt | Hge].
  - rewrite (ilog2_unique (Qabs t) (-1));
      [| rewrite Habs; change (2 ^ (-1)) with (1 # 2); lra
       | rewrite Habs; change (2 ^ (-1 + 1)) with 1; lra].
    change (Z.max (-1 - precision binary32 + 1) (emin binary32)) with (-24)%Z.
    rewrite (round_half_even_unique (t / 2 ^ (-24)) 16777216).
    + reflexivity.
    + change (2 ^ (-24)) with (1 # 16777216).
      assert (t / (1 # 16777216) == t * 16777216) as -> by (field; lra).
      change (inject_Z 16777216) with (16777216 # 1). lra.
    + intros _. reflexivity.
  - rewrite (ilog2_unique (Qabs t) 0);
      [| rewrite Habs; change (2 ^ 0) with 1; lra
       | rewrite Habs; change (2 ^ (0 + 1)) with 2; lra].
    change (Z.max (0 - precision binary32 + 1) (emin binary32)) with (-23)%Z.
    rewrite (round_half_even_unique (t / 2 ^ (-23)) 8388608).
    + reflexivity.
    + change (2 ^ (-23)) with (1 # 8388608).
      assert (t / (1 # 8388608) == t * 8388608) as -> by (field; lra).
      change (inject_Z 8388608) with (8388608 # 1). lra.
    + intros _. reflexivity.
Qed.

End Rounding.

(** ** Capture pipeline *)

Section Capture.

Import Number AudioRecorder.
Local Open Scope Q_scope.

Lemma Qgtb_true a b : Qgtb a b = true <-> b < a.
Proof.
  unfold Qgtb. rewrite negb_true_iff. split.
  - intros H. apply Qnot_le_lt. intros Hle.
    apply Qle_bool_iff in Hle. congruence.
  - intros H. destruct (Qle_bool a b) eqn:E; [|reflexivity].
    apply Qle_bool_iff in E. exfalso. eapply Qlt_not_le; eauto.
Qed.

Lemma Qgtb_false a b : Qgtb a b = false <-> a <= b.
Proof. unfold Qgtb. rewrite negb_false_iff. apply Qle_bool_iff. Qed.



Lemma Math_max_lt a b t : a < t -> b < t -> Math_max a b < t.
Proof. intros Ha Hb. unfold Math_max. destruct (Qle_bool a b); assumption. Qed.



Lemma peak_loop_below t w : forall a,
  a < t -> Forall (fun x => Qabs x < t) w ->
  fold_left (fun m x => Math_max m (Qabs x)) w a < t.
Proof.
  induction w as [|x w IH]; intros a Ha Hw; simpl; [assumption|].
  apply Forall_cons in Hw as [Hx Hw].
  apply IH; [apply Math_max_lt|]; assumption.
Qed.

Lemma MIN_AMPLITUDE_above : 1 # 100 <= MIN_AMPLITUDE.
Proof. unfold MIN_AMPLITUDE, Qle. simpl. lia. Qed.

Lemma MIN_AMPLITUDE_pos : 0 < MIN_AMPLITUDE.
Proof. unfold MIN_AMPLITUDE, Qlt. simpl. lia. Qed.

(** A window that does not pass the gate changes nothing. *)
Lemma gate_closed r i w :
  Qgtb (max_amplitude w) MIN_AMPLITUDE = false ->
  onaudioprocess r i w = (r, None).
Proof.
  intros H. unfold onaudioprocess.
  destruct (nodes r !! i) as [[[] pos]|]; try reflexivity.
  destruct (onAudioData r), (audioBuffer r); try reflexivity.
  rewrite H. reflexivity.
Qed.


(** What a window that passes the gate does on a live node. *)
Lemma gate_open r i w pos buf :
  nodes r !! i = Some {| connected := true; bufferPosition := pos |} ->
  onAudioData r = true ->
  audioBuffer r = Some buf ->
  Qgtb (max_amplitude w) MIN_AMPLITUDE = true ->
  onaudioprocess r i w =
    let stored := store_window (scale_of (max_amplitude w)) w buf pos in
    if (BUFFER_SIZE <=? snd stored)%nat
    then (with_buffer r i (new_Float32Array BUFFER_SIZE) 0,
          Some (chunk_of (fst stored) (audioContext r)))
    else (with_buffer r i (fst stored) (snd stored), None).
Proof.
  intros Hn Hc Hb Hg. unfold onaudioprocess. rewrite Hn, Hc, Hb, Hg.
  destruct (store_window _ w buf pos) as [b p]. reflexivity.
Qed.


Lemma to_int16_comp x y : x == y -> to_int16 x = to_int16 y.
Proof.
  intros E. unfold to_int16, to_number.
  rewrite (round_to_comp binary64 (x * 32768) (y * 32768));
    [reflexivity|]. rewrite E. reflexivity.
Qed.

(** The handler writes [audioBuffer] and its node's [bufferPosition]
    only. *)
Lemma onaudioprocess_flags r i w :
  isRecording (fst (onaudioprocess r i w)) = isRecording r /\
  error (fst (onaudioprocess r i w)) = error r.
Proof.
  unfold onaudioprocess. repeat case_match; split; reflexivity.
Qed.

End Capture.

Section CaptureClaims.

Import Number AudioRecorder.
Local Open Scope Q_scope.

Lemma scale_of_open m :
  MIN_AMPLITUDE < m -> scale_of m = to_number (1 / m).
Proof.
  intros H. unfold scale_of.
  assert (Qgtb m 0 = true) as ->; [|reflexivity].
  apply Qgtb_true. eapply Qlt_trans; [apply MIN_AMPLITUDE_pos | exact H].
Qed.




Lemma max_amplitude_finite w :
  forallb is_float32 w = true -> max_amplitude w < 2 ^ 128.
Proof.
  intros Hw. unfold max_amplitude. apply peak_loop_below; [reflexivity|].
  induction w as [|x w IH]; [constructor|]. simpl in Hw.
  apply andb_true_iff in Hw as [Hx Hw]. constructor; [|apply IH, Hw].
  unfold is_float32 in Hx. apply andb_true_iff in Hx as [_ Hx].
  apply Qgtb_true, Hx.
Qed.


(** The reciprocal of a peak that passed the gate is a normal double. *)
Lemma reciprocal_normal m :
  0 < m -> m < 2 ^ 128 ->
  2 ^ (emin binary64 + precision binary64 - 1) <= Qabs (1 / m).
Proof.
  intros Hpos Hfin.
  assert (0 < 1 / m) as Hinv.
  { unfold Qdiv. rewrite Qmult_1_l. apply Qinv_lt_0_compat, Hpos. }
  rewrite Qabs_pos by (apply Qlt_le_weak, Hinv).
  apply Qle_trans with (2 ^ (-128)).
  - apply Qpower_le_compat_l; [vm_compute; discriminate | discriminate].
  - change (2 ^ (-128)) with (/ 2 ^ 128). unfold Qdiv. rewrite Qmult_1_l.
    apply Qlt_le_weak.
    apply (proj1 (Qinv_lt_contravar m (2 ^ 128) Hpos (pow2_pos 128)) Hfin).
Qed.


(** The reciprocal of the peak, as computed, times the peak is 1 up to
    [2^-53]. *)
Lemma peak_times_scale m :
  MIN_AMPLITUDE < m -> m < 2 ^ 128 ->
  1 - (1 # 9007199254740992) <= m * scale_of m <= 1 + (1 # 9007199254740992).
Proof.
  intros Hm Hf. rewrite scale_of_open by exact Hm.
  assert (0 < m) as Hpos
    by (eapply Qlt_trans; [apply MIN_AMPLITUDE_pos | exact Hm]).
  pose proof (round_to_error binary64 (1 / m) (reciprocal_normal m Hpos Hf))
    as Herr.
  change (2 ^ (- precision binary64)) with (1 # 9007199254740992) in Herr.
  fold (to_number (1 / m)) in Herr.
  assert (0 < 1 / m) as Hinv.
  { unfold Qdiv. rewrite Qmult_1_l. apply Qinv_lt_0_compat, Hpos. }
  rewrite (Qabs_pos (1 / m)) in Herr by lra.
  apply Qabs_Qle_condition in Herr.
  assert (m * (1 / m) == 1) as Hone by (field; lra).
  revert Herr Hinv Hone. generalize (to_number (1 / m)) (1 / m).
  intros s i Herr Hinv Hone. nra.
Qed.

(** A double product within [2^-53] of 1 is stored as the single 1. *)
Lemma near_one_stored p :
  1 - (1 # 9007199254740992) <= p <= 1 + (1 # 9007199254740992) ->
  Math_fround (to_number p) == 1.
Proof.
  intros [Hl Hu].
  assert (2 ^ (emin binary64 + precision binary64 - 1) <= Qabs p) as Hn.
  { rewrite Qabs_pos by lra. apply Qle_trans with (2 ^ (-1)).
    - apply Qpower_le_compat_l; [vm_compute; discriminate | discriminate].
    - change (2 ^ (-1)) with (1 # 2). lra. }
  pose proof (round_to_error binary64 p Hn) as Herr.
  change (2 ^ (- precision binary64)) with (1 # 9007199254740992) in Herr.
  fold (to_number p) in Herr.
  rewrite (Qabs_pos p) in Herr by lra.
  apply Qabs_Qle_condition in Herr.
  apply Math_fround_near_one; lra.
Qed.

(** A sample at the peak is stored as 1 or -1, whatever the roundings. *)
Lemma peak_sample_stored m x :
  MIN_AMPLITUDE < m -> m < 2 ^ 128 -> Qabs x == m ->
  Math_fround (to_number (x * scale_of m)) ==
    if Qle_bool 0 x then 1 else - (1).
Proof.
  intros Hm Hf Hx. pose proof (peak_times_scale m Hm Hf) as Hp.
  destruct (Qle_bool 0 x) eqn:E.
  - apply Qle_bool_iff in E. rewrite Qabs_pos in Hx by exact E.
    unfold to_number.
    rewrite (round_to_comp binary64 (x * scale_of m) (m * scale_of m))
      by (rewrite Hx; reflexivity).
    apply near_one_stored, Hp.
  - assert (x <= 0) as Hneg.
    { apply Qlt_le_weak, Qnot_le_lt. intros H.
      apply Qle_bool_iff in H. congruence. }
    rewrite Qabs_neg in Hx by exact Hneg.
    unfold Math_fround, to_number.
    rewrite (round_to_comp binary64 (x * scale_of m) (- (m * scale_of m)))
      by (generalize (scale_of m); intros s; rewrite <- Hx; ring).
    rewrite (round_to_comp binary32 (round_to binary64 (- (m * scale_of m)))
               (- round_to binary64 (m * scale_of m)))
      by apply round_to_opp.
    rewrite round_to_opp.
    fold (to_number (m * scale_of m)).
    fold (Math_fround (to_number (m * scale_of m))).
    rewrite (near_one_stored _ Hp). reflexivity.
Qed.



(** C6.  A capture window in which every sample has absolute value below
    0.01 is discarded whole: the handler invokes no callback (no frame is
    emitted) and leaves the closure as it was, [audioBuffer] and
    [bufferPosition] included (nothing is appended). *)
Theorem silent_window_discarded (r : Recorder) (i : nat) (w : list Q) :
  Forall (fun x => Qabs x < 1 # 100) w ->
  onaudioprocess r i w = (r, None).
Proof.
  intros Hw. apply gate_closed, Qgtb_false.
  apply Qlt_le_weak. eapply Qlt_le_trans; [|apply MIN_AMPLITUDE_above].
  unfold max_amplitude. apply peak_loop_below; [reflexivity | exact Hw].
Qed.

Lemma silent_window_discarded_witness :
  onaudioprocess armed_recorder 0 (constant_window (-1 # 128)) =
    (armed_recorder, None).
Proof.
  apply (silent_window_discarded armed_recorder 0 (constant_window (-1 # 128))).
  apply Forall_replicate. reflexivity.
Defined.




End CaptureClaims.

(** ** Recording session *)

Section Session.

Import UI Loop.

Lemma error_watch_cases before s :
  error_watch before s = s \/
  error_watch before s = with_error (or_else (recorderError s) (wsError s)) s.
Proof.
  unfold error_watch.
  destruct (bool_decide _ && bool_decide _); [left | right]; reflexivity.
Qed.

(** The flush writes [error] and nothing else. *)
Lemma error_watch_frame before s :
  recorder (error_watch before s) = recorder s /\
  socket (error_watch before s) = socket s /\
  transcriptions (error_watch before s) = transcriptions s /\
  isRecordingSessionActive (error_watch before s) = isRecordingSessionActive s /\
  audioPlayer (error_watch before s) = audioPlayer s /\
  currentPlayingSegment (error_watch before s) = currentPlayingSegment s /\
  pending (error_watch before s) = pending s /\
  allocated (error_watch before s) = allocated s.
Proof.
  destruct (error_watch_cases before s) as [-> | ->]; repeat split.
Qed.

Lemma error_watch_idle before s :
  recorderError before = recorderError s -> wsError before = wsError s ->
  error_watch before s = s.
Proof.
  intros H1 H2. unfold error_watch.
  rewrite !bool_decide_eq_true_2 by assumption. reflexivity.
Qed.

Lemma active_error_watch before s :
  isRecordingSessionActive (error_watch before s) = isRecordingSessionActive s.
Proof. apply error_watch_frame. Qed.

Lemma recorder_error_watch before s :
  recorder (error_watch before s) = recorder s.
Proof. apply error_watch_frame. Qed.

Lemma socket_error_watch before s :
  socket (error_watch before s) = socket s.
Proof. apply error_watch_frame. Qed.

Lemma sendMessage_sent m c :
  WebSocket.sent (WebSocket.sendMessage m c) =
    if WebSocket.ws_open c then WebSocket.sent c ++ [m] else WebSocket.sent c.
Proof. unfold WebSocket.sendMessage. destruct (WebSocket.ws_open c); reflexivity. Qed.

Lemma sendMessage_flags m c :
  WebSocket.isConnected (WebSocket.sendMessage m c) = WebSocket.isConnected c /\
  WebSocket.ws (WebSocket.sendMessage m c) = WebSocket.ws c /\
  WebSocket.sockets (WebSocket.sendMessage m c) = WebSocket.sockets c.
Proof. unfold WebSocket.sendMessage. destruct (WebSocket.ws_open c); repeat split. Qed.

Lemma audio_gate_active d s :
  isRecordingSessionActive (audioDataCallback d s) = isRecordingSessionActive s.
Proof. unfold audioDataCallback. case_match; reflexivity. Qed.

(** A connected node can always be handed a window. *)
Lemma AudioProcess_enabled node inputData s pos :
  AudioRecorder.nodes (recorder s) !! node =
    Some {| AudioRecorder.connected := true;
            AudioRecorder.bufferPosition := pos |} ->
  exists s', step (AudioProcess node inputData) s = Some s'.
Proof.
  intros H. unfold step. rewrite H.
  destruct (AudioRecorder.onaudioprocess _ _ _) as [r [frame|]]; eauto.
Qed.

(** With one of the three flags down the callback is the identity. *)
Lemma audio_gate_drop d s :
  isConnected s = false \/ isRecording s = false \/
  isRecordingSessionActive s = false ->
  audioDataCallback d s = s.
Proof.
  intros H. unfold audioDataCallback.
  destruct H as [-> | [-> | ->]]; rewrite ?andb_false_r; reflexivity.
Qed.

Lemma audio_gate_closed d s :
  isRecordingSessionActive s = false -> audioDataCallback d s = s.
Proof. intros H. apply audio_gate_drop. auto. Qed.

(** C1.  The audio callback transmits a frame, as one [audio_data] message
    carrying the frame, only if [isConnected], [isRecording] and
    [isRecordingSessionActive] all hold when it runs; if one of them is
    false it leaves the whole component state as it was: nothing is sent
    and no error slot is written.  Accordingly a capture window delivered
    while one of them is false changes neither the log of sent messages nor
    any of the three error slots, whether it completes a frame or not. *)
Theorem audio_frame_gate (d : AudioRecorder.AudioData) (s : State) :
  (sent (audioDataCallback d s) = sent s \/
   sent (audioDataCallback d s) =
     sent s ++ [WebSocketMessage.audio_data (AudioRecorder.data d)]) /\
  (sent (audioDataCallback d s) <> sent s ->
   isConnected s = true /\ isRecording s = true /\
   isRecordingSessionActive s = true) /\
  (isConnected s = false \/ isRecording s = false \/
   isRecordingSessionActive s = false ->
   audioDataCallback d s = s) /\
  (forall node inputData s',
     step (AudioProcess node inputData) s = Some s' ->
     isConnected s = false \/ isRecording s = false \/
     isRecordingSessionActive s = false ->
     sent s' = sent s /\ error s' = error s /\
     wsError s' = wsError s /\ recorderError s' = recorderError s).
Proof.
  split; [|split; [|split]].
  - unfold audioDataCallback. case_match; [|left; reflexivity].
    unfold sent, sendMessage. simpl. rewrite sendMessage_sent.
    destruct (WebSocket.ws_open (socket s)); [right | left]; reflexivity.
  - intros Hsent.
    destruct (isConnected s) eqn:Hc, (isRecording s) eqn:Hr,
      (isRecordingSessionActive s) eqn:Ha; auto;
      exfalso; apply Hsent; rewrite audio_gate_drop; auto.
  - apply audio_gate_drop.
  - intros node inputData s' Hstep Hdown. unfold step in Hstep.
    destruct (AudioRecorder.nodes (recorder s) !! node) as [[[] pos]|];
      try discriminate.
    pose proof (onaudioprocess_flags (recorder s) node inputData)
      as [Hrec Herr].
    destruct (AudioRecorder.onaudioprocess (recorder s) node inputData)
      as [r out]. simpl in Hrec, Herr.
    assert (recorderError (with_recorder r s) = recorderError s)
      as Hre by exact Herr.
    destruct out as [frame|]; injection Hstep as <-.
    + unfold flushed. rewrite audio_gate_drop by (unfold isRecording; simpl;
        rewrite Hrec; exact Hdown).
      rewrite error_watch_idle by reflexivity. auto.
    + auto.
Qed.

Lemma audio_frame_gate_witness :
  (isConnected (after started) = true /\ isRecording (after started) = true /\
   isRecordingSessionActive (after started) = true) /\
  audioDataCallback full_scale_frame
    (after (started ++ [inbound_status "recording_stopped"])) =
  after (started ++ [inbound_status "recording_stopped"]) /\
  (exists s',
     step (AudioProcess 0 (constant_window (1 # 2)))
       (after (started ++ [inbound_status "recording_stopped"])) = Some s' /\
     sent s' = sent (after (started ++ [inbound_status "recording_stopped"]))).
Proof.
  split; [|split].
  - apply (audio_frame_gate full_scale_frame (after started)).
    intros H. apply (f_equal length) in H. revert H.
    unfold sent, audioDataCallback. lazy. discriminate.
  - apply (audio_frame_gate full_scale_frame
             (after (started ++ [inbound_status "recording_stopped"]))).
    right. right. reflexivity.
  - destruct (AudioProcess_enabled 0 (constant_window (1 # 2))
                (after (started ++ [inbound_status "recording_stopped"])) 0)
      as [s' Hs']; [vm_compute; reflexivity|].
    exists s'. split; [exact Hs'|].
    apply (audio_frame_gate full_scale_frame
             (after (started ++ [inbound_status "recording_stopped"]))
             ) with (node := 0%nat) (inputData := constant_window (1 # 2));
      [exact Hs' | right; right; reflexivity].
Defined.

Lemma active_flushed f s :
  isRecordingSessionActive (flushed f s) = isRecordingSessionActive (f s).
Proof. apply active_error_watch. Qed.

Lemma active_with_active b s : isRecordingSessionActive (with_active b s) = b.
Proof. reflexivity. Qed.

Lemma active_with_socket c s :
  isRecordingSessionActive (with_socket c s) = isRecordingSessionActive s.
Proof. reflexivity. Qed.

Lemma active_with_recorder r s :
  isRecordingSessionActive (with_recorder r s) = isRecordingSessionActive s.
Proof. reflexivity. Qed.

Lemma active_with_error e s :
  isRecordingSessionActive (with_error e s) = isRecordingSessionActive s.
Proof. reflexivity. Qed.

Lemma active_with_player a s :
  isRecordingSessionActive (with_player a s) = isRecordingSessionActive s.
Proof. reflexivity. Qed.

Lemma active_with_current c s :
  isRecordingSessionActive (with_current c s) = isRecordingSessionActive s.
Proof. reflexivity. Qed.

Lemma active_with_pending p s :
  isRecordingSessionActive (with_pending p s) = isRecordingSessionActive s.
Proof. reflexivity. Qed.

Lemma active_toggle_announce s :
  isRecordingSessionActive (toggle_announce s) = isRecordingSessionActive s.
Proof. reflexivity. Qed.

Lemma active_toggle_settled s :
  isRecordingSessionActive (toggle_settled s) = isRecordingSessionActive s.
Proof. reflexivity. Qed.

Lemma active_toggle_catch err s :
  isRecordingSessionActive (toggle_catch err s) = false.
Proof. reflexivity. Qed.

Lemma active_toggle_stop s : isRecordingSessionActive (toggle_stop s) = false.
Proof. reflexivity. Qed.

Lemma active_toggle_armed s : isRecordingSessionActive (toggle_armed s) = true.
Proof. reflexivity. Qed.

Lemma active_ws_startRecording_send s :
  isRecordingSessionActive (ws_startRecording_send s) =
    isRecordingSessionActive s.
Proof. reflexivity. Qed.

Lemma active_on_socket f s :
  isRecordingSessionActive (on_socket f s) = isRecordingSessionActive s.
Proof. reflexivity. Qed.

Lemma active_on_recorder f s :
  isRecordingSessionActive (on_recorder f s) = isRecordingSessionActive s.
Proof. reflexivity. Qed.

Lemma active_stopPlayback s :
  isRecordingSessionActive (stopPlayback s) = isRecordingSessionActive s.
Proof. reflexivity. Qed.

Lemma active_playSegment sid seg s :
  isRecordingSessionActive (playSegment sid seg s) = isRecordingSessionActive s.
Proof. unfold playSegment. case_match; reflexivity. Qed.

Create Rewrite HintDb active.

Hint Rewrite active_error_watch active_flushed active_with_active
  active_with_socket active_with_recorder active_with_error
  active_with_player active_with_current active_with_pending
  active_toggle_announce active_toggle_settled active_toggle_catch
  active_toggle_stop active_toggle_armed active_ws_startRecording_send
  active_on_socket active_on_recorder active_stopPlayback
  active_playSegment audio_gate_active : active.

(** A click never raises the flag: it clears it or leaves it. *)
Lemma toggleRecording_active ctor s :
  isRecordingSessionActive (toggleRecording ctor s) = false \/
  isRecordingSessionActive (toggleRecording ctor s) = isRecordingSessionActive s.
Proof.
  unfold toggleRecording.
  destruct (isRecording s); [left; apply active_flushed|].
  destruct (isConnected s).
  - right. rewrite active_flushed. unfold toggle_announce, suspend. simpl.
    apply active_flushed.
  - destruct ctor; [left; apply active_flushed | right; reflexivity].
Qed.

(** Among the messages, only a [status] saying [recording_started] raises
    the flag. *)
Lemma lastMessage_watch_raises env m s :
  isRecordingSessionActive s = false ->
  isRecordingSessionActive (lastMessage_watch env m s) = true ->
  WebSocketMessage.type m = "status" /\
  WebSocketMessage.status m = Some "recording_started".
Proof.
  intros Hs. unfold lastMessage_watch.
  destruct (String.eqb_spec (WebSocketMessage.type m) "transcription").
  { unfold on_transcription. repeat case_match; simpl; congruence. }
  destruct (String.eqb_spec (WebSocketMessage.type m) "audio_segment").
  { unfold on_audio_segment. repeat case_match; simpl; congruence. }
  destruct (String.eqb_spec (WebSocketMessage.type m) "error").
  { unfold on_error. repeat case_match; simpl; congruence. }
  destruct (String.eqb_spec (WebSocketMessage.type m) "status");
    [|congruence].
  unfold on_status. destruct (WebSocketMessage.status m) as [st|]; [|congruence].
  destruct (String.eqb_spec st "recording_started"); [subst; auto|].
  destruct (String.eqb st "recording_stopped"); simpl; congruence.
Qed.

(** C2, as amended.  The flag is false right after setup and after every
    stop sequence; a step raises it only when it is the successful arm of a
    suspended start sequence or an inbound [status] message saying
    [recording_started]; and the close of a socket clears [isConnected] but
    leaves the flag as it is. *)
Theorem session_flag_lifecycle :
  isRecordingSessionActive init = false /\
  (forall ctor s, isRecording s = true ->
     isRecordingSessionActive (toggleRecording ctor s) = false) /\
  (forall e s s', step e s = Some s' ->
     isRecordingSessionActive s = false ->
     isRecordingSessionActive s' = true ->
     (exists i, e = MicGranted i /\ pending s !! i = Some AwaitMic /\
                isRecording s' = true) \/
     (exists n m env, e = SocketMessage n (Some m) env /\
                WebSocketMessage.type m = "status" /\
                WebSocketMessage.status m = Some "recording_started")) /\
  (forall n s s', step (SocketClose n) s = Some s' ->
     isConnected s' = false /\
     isRecordingSessionActive s' = isRecordingSessionActive s).
Proof.
  split; [reflexivity|]. split; [|split].
  - intros ctor s Hr. unfold toggleRecording. rewrite Hr. apply active_flushed.
  - intros e s s' Hstep Hs Hs'. destruct e; unfold step in Hstep;
      repeat case_match; simplify_eq;
      try (autorewrite with active in Hs';
           unfold onMounted, onPlaybackEnded, play_rejected in Hs';
           autorewrite with active in Hs'; congruence).
    + destruct (toggleRecording_active ctor s) as [H | H]; congruence.
    + right. eexists _, _, _. split; [reflexivity|].
      autorewrite with active in Hs'.
      eapply lastMessage_watch_raises; [|exact Hs']. exact Hs.
    + left. eexists. split; [reflexivity|]. split; [assumption|].
      unfold flushed, isRecording. rewrite recorder_error_watch.
      unfold toggle_armed. simpl. rewrite recorder_error_watch. reflexivity.
  - intros n s s' Hstep. unfold step in Hstep.
    repeat case_match; simplify_eq;
      (split; [unfold flushed, isConnected; rewrite socket_error_watch;
               reflexivity
              | autorewrite with active; reflexivity]).
Qed.

Lemma session_flag_lifecycle_witness :
  isRecordingSessionActive (toggleRecording None (after started)) = false /\
  ((exists i, MicGranted 0 = MicGranted i /\
      pending (after (announced ++ [TimerFired])) !! i = Some AwaitMic /\
      isRecording (after started) = true) \/
   (exists n m env, MicGranted 0 = SocketMessage n (Some m) env /\
      WebSocketMessage.type m = "status" /\
      WebSocketMessage.status m = Some "recording_started")) /\
  (isConnected (after (started ++ [SocketClose 0])) = false /\
   isRecordingSessionActive (after (started ++ [SocketClose 0])) =
     isRecordingSessionActive (after started)).
Proof.
  pose proof session_flag_lifecycle as [_ [Hstop [Hraise Hclose]]].
  split; [|split].
  - apply Hstop. vm_compute. reflexivity.
  - apply (Hraise (MicGranted 0) (after (announced ++ [TimerFired]))
             (after started)); vm_compute; reflexivity.
  - apply (Hclose 0%nat (after started)). vm_compute. reflexivity.
Defined.

(** C2 as stated fails twice.  After a whole start sequence the socket
    closes: the flag is still true and [isConnected] is false.  And a
    [recording_started] status that arrives while the invocation still waits
    for its timer raises the flag before the microphone was ever requested. *)
Lemma session_active_while_disconnected :
  (exists s, run (started ++ [SocketClose 0]) init = Some s /\
     isRecordingSessionActive s = true /\ isConnected s = false) /\
  (exists s, run (announced ++ [inbound_status "recording_started"]) init =
               Some s /\
     isRecordingSessionActive s = true /\ isRecording s = false /\
     pending s = [AwaitSettle] /\
     AudioRecorder.nodes (recorder s) = []).
Proof.
  split; eexists; (split; [vm_compute; reflexivity|]); repeat split.
Qed.

(** C3, as amended.  An inbound [status] message saying [recording_stopped]
    clears the flag and, apart from being recorded as the last message
    received, changes nothing else: the resulting state is the one before
    with [lastMessage] set and the flag cleared.  In particular the recorder
    closure is untouched (a microphone that was armed stays armed, and is
    released only by a local stop), the transcript, the error slot, the
    player, the playback target and the suspended invocations are as they
    were, and nothing is sent.  The audio callback drops every frame in the
    resulting state, and in any state in which the flag is false. *)
Theorem recording_stopped_clears_flag_only
    (n : nat) (m : WebSocketMessage.t) (env : Env) (s s' : State) :
  WebSocketMessage.type m = "status" ->
  WebSocketMessage.status m = Some "recording_stopped" ->
  step (SocketMessage n (Some m) env) s = Some s' ->
  s' = with_active false
         (with_socket (WebSocket.onmessage (Some m) (socket s)) s) /\
  isRecordingSessionActive s' = false /\
  lastMessage s' = Some m /\
  recorder s' = recorder s /\
  sent s' = sent s /\
  (transcriptions s' = transcriptions s /\ error s' = error s /\
   audioPlayer s' = audioPlayer s /\
   currentPlayingSegment s' = currentPlayingSegment s /\
   pending s' = pending s /\ isConnected s' = isConnected s) /\
  (forall d, audioDataCallback d s' = s') /\
  (forall d later, isRecordingSessionActive later = false ->
     audioDataCallback d later = later).
Proof.
  intros Hty Hst Hstep. unfold step in Hstep.
  repeat case_match; simplify_eq.
  assert (lastMessage_watch env m (on_socket (WebSocket.onmessage (Some m)) s) =
          with_active false (on_socket (WebSocket.onmessage (Some m)) s)) as Hw.
  { unfold lastMessage_watch, on_status. rewrite Hty, Hst. reflexivity. }
  rewrite Hw. rewrite error_watch_idle by reflexivity.
  split; [reflexivity|]. repeat split.
  - intros d. apply audio_gate_closed. reflexivity.
  - intros d later Hlater. apply audio_gate_closed. exact Hlater.
Qed.

Lemma recording_stopped_clears_flag_only_witness :
  after (started ++ [inbound_status "recording_stopped"]) =
    with_active false
      (with_socket
         (WebSocket.onmessage
            (Some (WebSocketMessage.of_status "recording_stopped"))
            (socket (after started)))
         (after started)) /\
  isRecordingSessionActive
    (after (started ++ [inbound_status "recording_stopped"])) = false /\
  recorder (after (started ++ [inbound_status "recording_stopped"])) =
    recorder (after started) /\
  sent (after (started ++ [inbound_status "recording_stopped"])) =
    sent (after started) /\
  (forall d,
     audioDataCallback d
       (after (started ++ [inbound_status "recording_stopped"])) =
     after (started ++ [inbound_status "recording_stopped"])).
Proof.
  destruct (recording_stopped_clears_flag_only 0
              (WebSocketMessage.of_status "recording_stopped") quiet
              (after started)
              (after (started ++ [inbound_status "recording_stopped"])))
    as (H1 & H2 & _ & H4 & H5 & _ & H7 & _);
    [reflexivity | reflexivity | vm_compute; reflexivity |].
  exact (conj H1 (conj H2 (conj H4 (conj H5 H7)))).
Defined.

(** C3 as stated fails: after a whole start sequence the session is active
    and the microphone armed; the [recording_stopped] status clears the flag
    but the recorder still records, holds its stream and its node stays
    connected. *)
Lemma recording_stopped_keeps_capture_armed :
  exists s s',
    run started init = Some s /\
    isRecordingSessionActive s = true /\ isRecording s = true /\
    step (inbound_status "recording_stopped") s = Some s' /\
    isRecordingSessionActive s' = false /\
    isRecording s' = true /\
    AudioRecorder.audioStream (recorder s') = true /\
    AudioRecorder.processor (recorder s') = Some 0%nat /\
    AudioRecorder.nodes (recorder s') =
      [{| AudioRecorder.connected := true;
          AudioRecorder.bufferPosition := 0 |}].
Proof.
  eexists _, _. split; [vm_compute; reflexivity|].
  split; [reflexivity|]. split; [reflexivity|].
  split; [vm_compute; reflexivity|]. repeat split.
Qed.

Lemma stopRecording_sent c :
  WebSocket.sent (WebSocket.stopRecording c) =
    if WebSocket.isConnected c && WebSocket.ws_open c
    then WebSocket.sent c ++ [WebSocketMessage.of_status "stop_recording"]
    else WebSocket.sent c.
Proof.
  unfold WebSocket.stopRecording. destruct (WebSocket.isConnected c); simpl;
    [apply sendMessage_sent | reflexivity].
Qed.

Lemma toggle_stop_recorder ctor s :
  isRecording s = true ->
  recorder (toggleRecording ctor s) = AudioRecorder.cleanup (recorder s).
Proof.
  intros Hr. unfold toggleRecording. rewrite Hr.
  unfold flushed. rewrite recorder_error_watch. reflexivity.
Qed.

Lemma toggle_stop_sent ctor s :
  isRecording s = true ->
  sent (toggleRecording ctor s) =
    if isConnected s && WebSocket.ws_open (socket s)
    then sent s ++ [WebSocketMessage.of_status "stop_recording"]
    else sent s.
Proof.
  intros Hr. unfold toggleRecording. rewrite Hr.
  unfold flushed, sent. rewrite socket_error_watch.
  unfold toggle_stop. simpl. apply stopRecording_sent.
Qed.

(** C4, as amended.  While [isRecording] holds, a click releases the
    pipeline the recorder holds: the node the variable [processor] names is
    disconnected, the context, the stream and the buffer are dropped, and
    [isRecording] and the session flag are cleared.  When the recorder runs
    no other node than that one, no node is connected afterwards: the whole
    capture pipeline is disarmed.  If the transport is connected and its
    socket open, a message carrying [stop_recording] in its [status] field
    is sent; if it is not, nothing is sent. *)
Theorem local_stop_disarms_and_notifies (ctor : option Thrown) (s : State) :
  isRecording s = true ->
  (isRecording (toggleRecording ctor s) = false /\
   AudioRecorder.processor (recorder (toggleRecording ctor s)) = None /\
   AudioRecorder.audioContext (recorder (toggleRecording ctor s)) = None /\
   AudioRecorder.audioStream (recorder (toggleRecording ctor s)) = false /\
   AudioRecorder.audioBuffer (recorder (toggleRecording ctor s)) = None /\
   (forall i node,
      AudioRecorder.processor (recorder s) = Some i ->
      AudioRecorder.nodes (recorder (toggleRecording ctor s)) !! i = Some node ->
      AudioRecorder.connected node = false)) /\
  (single_pipeline (recorder s) ->
   Forall (fun node => AudioRecorder.connected node = false)
     (AudioRecorder.nodes (recorder (toggleRecording ctor s)))) /\
  isRecordingSessionActive (toggleRecording ctor s) = false /\
  (isConnected s = true -> WebSocket.ws_open (socket s) = true ->
   exists new m,
     sent (toggleRecording ctor s) = sent s ++ new /\ m ∈ new /\
     WebSocketMessage.status m = Some "stop_recording") /\
  (isConnected s = false \/ WebSocket.ws_open (socket s) = false ->
   sent (toggleRecording ctor s) = sent s).
Proof.
  intros Hr. split; [|split; [|split; [|split]]].
  - unfold isRecording at 1. rewrite (toggle_stop_recorder ctor s Hr).
    repeat split. intros i node Hp Hn. simpl in Hn. rewrite Hp in Hn.
    rewrite list_lookup_alter, decide_True in Hn by reflexivity.
    destruct (AudioRecorder.nodes (recorder s) !! i); simpl in Hn;
      simplify_eq.
    reflexivity.
  - intros Hsingle. rewrite (toggle_stop_recorder ctor s Hr).
    apply Forall_lookup. intros j node Hn. simpl in Hn.
    destruct (AudioRecorder.connected node) eqn:Hc; [exfalso | reflexivity].
    destruct (AudioRecorder.processor (recorder s)) as [i|] eqn:Hp.
    + destruct (decide (i = j)) as [->|Hne].
      * rewrite list_lookup_alter, decide_True in Hn by reflexivity.
        destruct (AudioRecorder.nodes (recorder s) !! j); simpl in Hn;
          simplify_eq; try discriminate.
      * rewrite list_lookup_alter_ne in Hn by exact Hne.
        pose proof (Hsingle j node Hn Hc). congruence.
    + pose proof (Hsingle j node Hn Hc). congruence.
  - unfold toggleRecording. rewrite Hr. apply active_flushed.
  - intros Hc Ho. rewrite (toggle_stop_sent ctor s Hr), Hc, Ho.
    eexists _, _. split; [reflexivity|]. split; [left | reflexivity].
  - intros H. rewrite (toggle_stop_sent ctor s Hr).
    destruct H as [-> | ->]; [reflexivity | rewrite andb_false_r; reflexivity].
Qed.

Lemma after_started_single : single_pipeline (recorder (after started)).
Proof.
  intros j node Hn Hc.
  assert (AudioRecorder.nodes (recorder (after started)) =
          [{| AudioRecorder.connected := true;
              AudioRecorder.bufferPosition := 0 |}]) as Hnodes
    by (vm_compute; reflexivity).
  rewrite Hnodes in Hn. destruct j as [|j]; [|destruct j; discriminate].
  vm_compute. reflexivity.
Qed.

Lemma local_stop_disarms_and_notifies_witness :
  isRecording (toggleRecording None (after started)) = false /\
  Forall (fun node => AudioRecorder.connected node = false)
    (AudioRecorder.nodes (recorder (toggleRecording None (after started)))) /\
  (exists new m,
     sent (toggleRecording None (after started)) =
       sent (after started) ++ new /\ m ∈ new /\
     WebSocketMessage.status m = Some "stop_recording") /\
  sent (toggleRecording None (after (started ++ [SocketClose 0]))) =
    sent (after (started ++ [SocketClose 0])).
Proof.
  destruct (local_stop_disarms_and_notifies None (after started))
    as ((H1 & _) & H2 & _ & H3 & _); [vm_compute; reflexivity|].
  destruct (local_stop_disarms_and_notifies None
              (after (started ++ [SocketClose 0])))
    as (_ & _ & _ & _ & H4); [vm_compute; reflexivity|].
  split; [exact H1|]. split; [apply H2, after_started_single|].
  split; [apply H3; vm_compute; reflexivity|].
  apply H4. left. vm_compute. reflexivity.
Defined.

(** C4 as stated fails.  Stopping a connected recording sends a message
    whose [type] is [status]; no message of type [stop_recording] is ever
    sent.  Stopping after the socket closed sends nothing at all.  And
    after two overlapping start sequences a stop releases the second
    pipeline only: the node of the first stays connected. *)
Lemma stop_sends_no_stop_recording_message :
  (exists s, run started init = Some s /\ isRecording s = true /\
     sent (toggleRecording None s) =
       sent s ++ [WebSocketMessage.of_status "stop_recording"] /\
     forallb (fun m => negb (String.eqb (WebSocketMessage.type m)
                                        "stop_recording"))
             (sent (toggleRecording None s)) = true) /\
  (exists s, run (started ++ [SocketClose 0]) init = Some s /\
     isRecording s = true /\
     sent (toggleRecording None s) = sent s) /\
  (exists s, run started_twice init = Some s /\
     isRecording s = true /\
     AudioRecorder.connected <$>
       AudioRecorder.nodes (recorder (toggleRecording None s)) =
       [true; false]).
Proof.
  split; [|split]; eexists; (split; [vm_compute; reflexivity|]);
    repeat split; vm_compute; reflexivity.
Qed.

End Session.

(** ** Inbound messages *)

Section Messages.

Import UI Loop.

Lemma prefix_iff n : forall s,
  String.prefix n s = true <-> exists r, s = n +:+ r.
Proof.
  induction n as [|a n IH]; intros s.
  - split; [intros _; exists s; reflexivity | destruct s; reflexivity].
  - destruct s as [|b s]; simpl.
    + split; [discriminate | intros [r Hr]; discriminate].
    + destruct (Ascii.ascii_dec a b) as [->|Hne].
      * rewrite IH. split; intros [r Hr]; exists r; [rewrite Hr | injection Hr];
          auto.
      * split; [discriminate | intros [r Hr]; injection Hr; congruence].
Qed.

Lemma includes_nil n : includes n EmptyString = String.prefix n EmptyString.
Proof. destruct n; reflexivity. Qed.

Lemma includes_cons n c s :
  includes n (String c s) = String.prefix n (String c s) || includes n s.
Proof. reflexivity. Qed.

(** [includes] decides occurrence. *)
Lemma includes_iff n s : includes n s = true <-> contains n s.
Proof.
  unfold contains. split.
  - induction s as [|c s IH].
    + rewrite includes_nil, prefix_iff. intros [r Hr].
      exists EmptyString, r. exact Hr.
    + rewrite includes_cons, orb_true_iff, prefix_iff.
      intros [[r Hr] | H]; [exists EmptyString, r; exact Hr|].
      destruct (IH H) as (l & r & ->). exists (String c l), r. reflexivity.
  - intros (l & r & ->). induction l as [|c l IH].
    + assert (String.prefix n (n +:+ r) = true) as Hp
        by (apply prefix_iff; exists r; reflexivity).
      change (EmptyString +:+ n +:+ r) with (n +:+ r).
      destruct (n +:+ r) as [|c t].
      * rewrite includes_nil. exact Hp.
      * rewrite includes_cons, Hp. reflexivity.
    + change (String c l +:+ n +:+ r) with (String c (l +:+ n +:+ r)).
      rewrite includes_cons, IH. apply orb_true_r.
Qed.

Lemma or_else_text (o : option string) (fallback text : string) :
  o = Some text -> text <> EmptyString -> or_else o (Some fallback) = Some text.
Proof.
  intros -> Hne. unfold or_else. simpl.
  destruct (String.eqb_spec text ""); [contradiction | reflexivity].
Qed.

Lemma lastMessage_watch_error env m s :
  WebSocketMessage.type m = "error" ->
  lastMessage_watch env m s = on_error m s.
Proof. intros H. unfold lastMessage_watch. rewrite H. reflexivity. Qed.

(** C5.  On an inbound [error] message the watcher writes the error text
    to [error] (a placeholder when the text is missing or empty), clears the
    session flag when the text contains "No active recording session"
    whatever the flag was, leaves the flag as it was when the text does not
    contain it, and changes nothing else in the component state. *)
Theorem inbound_error_handling
    (env : Env) (m : WebSocketMessage.t) (s : State) :
  WebSocketMessage.type m = "error" ->
  (forall text, WebSocketMessage.error m = Some text -> text <> EmptyString ->
     error (lastMessage_watch env m s) = Some text) /\
  (WebSocketMessage.error m = None \/
   WebSocketMessage.error m = Some EmptyString ->
     error (lastMessage_watch env m s) = Some "Unknown error occurred") /\
  (forall text, WebSocketMessage.error m = Some text ->
     contains NO_SESSION text ->
     isRecordingSessionActive (lastMessage_watch env m s) = false) /\
  ((forall text, WebSocketMessage.error m = Some text ->
      ~ contains NO_SESSION text) ->
     isRecordingSessionActive (lastMessage_watch env m s) =
       isRecordingSessionActive s) /\
  lastMessage_watch env m s =
    with_active (isRecordingSessionActive (lastMessage_watch env m s))
      (with_error (error (lastMessage_watch env m s)) s).
Proof.
  intros Hty. rewrite (lastMessage_watch_error env m s Hty). unfold on_error.
  destruct (WebSocketMessage.error m) as [text|] eqn:He.
  - destruct (includes NO_SESSION text) eqn:Hi.
    + split; [|split; [|split; [|split]]]; simpl.
      * intros ? [= <-] Hne. apply or_else_text; auto.
      * intros [H | [= ->]]; [discriminate | reflexivity].
      * reflexivity.
      * intros Hno. exfalso. apply (Hno text eq_refl), includes_iff, Hi.
      * reflexivity.
    + split; [|split; [|split; [|split]]]; simpl.
      * intros ? [= <-] Hne. apply or_else_text; auto.
      * intros [H | [= ->]]; [discriminate | reflexivity].
      * intros ? [= <-] Hc. apply includes_iff in Hc. congruence.
      * reflexivity.
      * destruct s; reflexivity.
  - split; [|split; [|split; [|split]]]; simpl;
      try discriminate; try reflexivity.
Qed.

Lemma inbound_error_handling_witness :
  error (lastMessage_watch quiet
           (inbound_error "No active recording session for this client")
           (after started)) =
    Some "No active recording session for this client" /\
  isRecordingSessionActive
    (lastMessage_watch quiet
       (inbound_error "No active recording session for this client")
       (after started)) = false /\
  isRecordingSessionActive
    (lastMessage_watch quiet (inbound_error "Transcription failed")
       (after started)) = isRecordingSessionActive (after started).
Proof.
  pose proof (inbound_error_handling quiet
                (inbound_error "No active recording session for this client")
                (after started) eq_refl) as (Htext & _ & Hclear & _).
  pose proof (inbound_error_handling quiet
                (inbound_error "Transcription failed")
                (after started) eq_refl) as (_ & _ & _ & Hkeep & _).
  split; [|split].
  - apply Htext; [reflexivity | discriminate].
  - apply (Hclear "No active recording session for this client");
      [reflexivity | apply includes_iff; reflexivity].
  - apply Hkeep. intros text [= <-] Hc. apply includes_iff in Hc.
    discriminate.
Defined.

Lemma copy_fields_id seg : copy_fields seg = seg.
Proof. destruct seg; reflexivity. Qed.

(** The copies carry the fields of the message's segments, in order, and
    take the next unused identities. *)
Lemma copy_segments_fields base segs :
  Segment.fields <$> copy_segments base segs = default [] segs.
Proof.
  unfold copy_segments. rewrite fmap_imap.
  rewrite (imap_ext _ (const id)); [rewrite imap_const; apply list_fmap_id|].
  intros i x _. apply copy_fields_id.
Qed.

Lemma copy_segments_identities base segs :
  Segment.identity <$> copy_segments base segs =
    seq base (length (default [] segs)).
Proof.
  unfold copy_segments. rewrite fmap_imap.
  rewrite (imap_ext _ (fun j _ => id (base + j)%nat)); [|reflexivity].
  rewrite imap_seq. apply list_fmap_id.
Qed.

Lemma lastMessage_watch_transcription env m s :
  WebSocketMessage.type m = "transcription" ->
  lastMessage_watch env m s = on_transcription env m s.
Proof. intros H. unfold lastMessage_watch. rewrite H. reflexivity. Qed.

(** C9.  On an inbound [transcription] message with a non-empty text and a
    non-empty session id the watcher appends exactly one group to
    [transcriptions]: it is tagged with that session id, carries that text
    and one new object per segment of the message, field for field and in
    order (none when [segments] is absent), and the earlier groups and the
    rest of the session state stay as they were.  When the text or the
    session id is missing or empty the state is left untouched: nothing is
    appended and [error] is not written. *)
Theorem transcription_appended
    (env : Env) (m : WebSocketMessage.t) (s : State) :
  WebSocketMessage.type m = "transcription" ->
  (forall text sid,
     WebSocketMessage.text m = Some text -> text <> EmptyString ->
     WebSocketMessage.session_id m = Some sid -> sid <> EmptyString ->
     exists group,
       transcriptions (lastMessage_watch env m s) =
         transcriptions s ++ [group] /\
       Transcription.session_id group = sid /\
       Transcription.text group = text /\
       Segment.fields <$> Transcription.segments group =
         default [] (WebSocketMessage.segments m) /\
       error (lastMessage_watch env m s) = error s /\
       isRecordingSessionActive (lastMessage_watch env m s) =
         isRecordingSessionActive s /\
       recorder (lastMessage_watch env m s) = recorder s /\
       socket (lastMessage_watch env m s) = socket s /\
       audioPlayer (lastMessage_watch env m s) = audioPlayer s /\
       currentPlayingSegment (lastMessage_watch env m s) =
         currentPlayingSegment s) /\
  (WebSocketMessage.text m = None \/
   WebSocketMessage.text m = Some EmptyString \/
   WebSocketMessage.session_id m = None \/
   WebSocketMessage.session_id m = Some EmptyString ->
   lastMessage_watch env m s = s).
Proof.
  intros Hty. rewrite (lastMessage_watch_transcription env m s Hty).
  unfold on_transcription. split.
  - intros text sid -> Ht -> Hs.
    destruct (String.eqb_spec text ""); [contradiction|].
    destruct (String.eqb_spec sid ""); [contradiction|]. simpl.
    eexists. split; [reflexivity|]. simpl. repeat split.
    apply copy_segments_fields.
  - intros [-> | [-> | [-> | ->]]]; try reflexivity.
    + destruct (WebSocketMessage.session_id m); reflexivity.
    + destruct (WebSocketMessage.text m); reflexivity.
    + destruct (WebSocketMessage.text m) as [text|]; [|reflexivity].
      simpl. rewrite andb_false_r. reflexivity.
Qed.

Lemma transcription_appended_witness :
  (exists group,
     transcriptions (lastMessage_watch quiet hello_message (after started)) =
       transcriptions (after started) ++ [group] /\
     Transcription.session_id group = "s1" /\
     Transcription.text group = "hello" /\
     Segment.fields <$> Transcription.segments group = [hello_segment]) /\
  lastMessage_watch quiet
    (WebSocketMessage.of_type "transcription") (after started) =
  after started.
Proof.
  split.
  - destruct (proj1 (transcription_appended quiet hello_message
                       (after started) eq_refl) "hello" "s1")
      as (group & H1 & H2 & H3 & H4 & _);
      [reflexivity | discriminate | reflexivity | discriminate |].
    exists group. repeat split; assumption.
  - apply (transcription_appended quiet
             (WebSocketMessage.of_type "transcription") (after started)
             eq_refl).
    left. reflexivity.
Defined.

End Messages.

(** ** Playback *)

Section Playback.

Import UI Loop.

Lemma same_refl seg : Segment.same seg seg = true.
Proof. apply Nat.eqb_refl. Qed.


(** A request for a segment that is not the current target makes it the
    target and asks the backend for its absolute range. *)
Lemma playSegment_request sid seg s :
  isPlayingSegment seg s = false ->
  playSegment sid seg s =
    sendMessage
      (WebSocketMessage.play_audio sid
         (TranscriptionSegment.absolute_start (Segment.fields seg))
         (TranscriptionSegment.absolute_end (Segment.fields seg)))
      (with_current (Some seg) s).
Proof. intros H. unfold playSegment. rewrite H. reflexivity. Qed.

(** A request for the current target stops playback. *)
Lemma playSegment_cancel sid seg s :
  currentPlayingSegment s = Some seg -> playSegment sid seg s = stopPlayback s.
Proof.
  intros H. unfold playSegment, isPlayingSegment. rewrite H, same_refl.
  reflexivity.
Qed.

Lemma stopPlayback_player s player :
  audioPlayer (stopPlayback s) = Some player ->
  AudioElement.paused player = true /\ AudioElement.currentTime player = 0%Q.
Proof.
  unfold stopPlayback. simpl. destruct (audioPlayer s); simpl; [|discriminate].
  intros [= <-]. split; reflexivity.
Qed.

(** C8, as amended.  From a state in which the segment is not already the
    playback target, two successive requests for it end with playback
    stopped: the first makes it the target, the second pauses the player,
    resets its position to 0, clears the target and sends nothing. *)
Theorem repeated_request_cancels
    (sid sid' : string) (seg : Segment.t) (s s1 s2 : State) :
  isPlayingSegment seg s = false ->
  step (PlaySegment sid seg) s = Some s1 ->
  step (PlaySegment sid' seg) s1 = Some s2 ->
  currentPlayingSegment s1 = Some seg /\
  currentPlayingSegment s2 = None /\
  (forall player, audioPlayer s2 = Some player ->
     AudioElement.paused player = true /\
     AudioElement.currentTime player = 0%Q) /\
  sent s2 = sent s1.
Proof.
  intros Hidle H1 H2. unfold step in H1, H2.
  injection H1 as H1. injection H2 as H2.
  assert (currentPlayingSegment s1 = Some seg) as Hcur.
  { rewrite <- H1. unfold flushed.
    destruct (error_watch_frame s (playSegment sid seg s))
      as (_ & _ & _ & _ & _ & -> & _).
    rewrite (playSegment_request sid seg s Hidle). reflexivity. }
  split; [exact Hcur|].
  unfold flushed in H2. rewrite (playSegment_cancel sid' seg s1 Hcur) in H2.
  destruct (error_watch_frame s1 (stopPlayback s1))
    as (_ & Hsock & _ & _ & Hplayer & Hcurrent & _).
  rewrite H2 in Hsock, Hplayer, Hcurrent.
  split; [rewrite Hcurrent; reflexivity|]. split.
  - intros player Hp. rewrite Hplayer in Hp.
    apply (stopPlayback_player _ _ Hp).
  - unfold sent. rewrite Hsock. reflexivity.
Qed.

Lemma repeated_request_cancels_witness :
  currentPlayingSegment (after (transcribed ++ [click_hello 0])) =
    Some (hello_object 0) /\
  currentPlayingSegment
    (after (transcribed ++ [click_hello 0; click_hello 0])) = None /\
  (forall player,
     audioPlayer (after (transcribed ++ [click_hello 0; click_hello 0])) =
       Some player ->
     AudioElement.paused player = true /\
     AudioElement.currentTime player = 0%Q) /\
  sent (after (transcribed ++ [click_hello 0; click_hello 0])) =
    sent (after (transcribed ++ [click_hello 0])).
Proof.
  apply (repeated_request_cancels "s1" "s1" (hello_object 0)
           (after transcribed)); vm_compute; reflexivity.
Defined.

(** C8 as stated fails in the states in which the segment is already the
    target: of two further requests the first stops playback and the second
    makes the segment the target again and sends a new [play_audio]. *)
Lemma request_on_playing_segment_restarts :
  exists s s1 s2,
    run (transcribed ++ [click_hello 0]) init = Some s /\
    currentPlayingSegment s = Some (hello_object 0) /\
    step (click_hello 0) s = Some s1 /\
    step (click_hello 0) s1 = Some s2 /\
    currentPlayingSegment s1 = None /\
    currentPlayingSegment s2 = Some (hello_object 0) /\
    sent s2 = sent s1 ++ [WebSocketMessage.play_audio "s1" 0 1].
Proof.
  eexists _, _, _. split; [vm_compute; reflexivity|].
  split; [reflexivity|]. split; [vm_compute; reflexivity|].
  split; [vm_compute; reflexivity|]. repeat split.
Qed.



End Playback.

(** ** The scenarios used above *)

Section Scenarios.

Import UI Loop.

(** Every trace named in the statements runs from the initial state, so
    [after] denotes the state it really leads to. *)
Lemma scenarios_run :
  Forall (fun trace => run trace init = Some (after trace))
    [ announced; announced ++ [TimerFired]; started;
      started ++ [SocketClose 0];
      started ++ [inbound_status "recording_stopped"];
      transcribed; transcribed ++ [click_hello 0];
      transcribed ++ [click_hello 0; click_hello 0];
      transcribed_twice ++ [click_hello 0] ].
Proof. repeat (apply Forall_cons; split; [vm_compute; reflexivity|]). constructor. Qed.

Lemma scenarios_reachable :
  reachable (after started) /\
  reachable (after (started ++ [SocketClose 0])) /\
  reachable (after (transcribed_twice ++ [click_hello 0])).
Proof.
  split; [|split].
  - exists started. vm_compute. reflexivity.
  - exists (started ++ [SocketClose 0]). vm_compute. reflexivity.
  - exists (transcribed_twice ++ [click_hello 0]). vm_compute. reflexivity.
Qed.

Example btoa_padding :
  btoa [77; 97; 110] = "TWFu" /\ btoa [77; 97] = "TWE=" /\ btoa [77] = "TQ==".
Proof. repeat split. Qed.

Example to_int16_clamps :
  AudioRecorder.to_int16 1 = 32767 /\ AudioRecorder.to_int16 (-1) = -32768 /\
  AudioRecorder.to_int16 (1 # 3) = 10923 /\
  AudioRecorder.to_int16 (-1 # 65536) = 0.
Proof. repeat split. Qed.

Example bytes_low_first :
  AudioRecorder.bytes_of [32767; -32768; -1] = [255; 127; 0; 128; 255; 255].
Proof. reflexivity. Qed.

Example includes_indicator :
  includes NO_SESSION "Error: No active recording session found" = true /\
  includes NO_SESSION "No active session" = false.
Proof. split; reflexivity. Qed.

End Scenarios.

(** * Further properties *)

(** ** Frames *)

Section Frames.

Import Number AudioRecorder.
















(** Writing a window of the size of the buffer from position 0 replaces
    the buffer by the scaled window. *)
Lemma store_window_over scale w : forall done rest,
  length rest = length w ->
  store_window scale w (done ++ rest) (length done) =
    (done ++ map (fun x => Math_fround (to_number (x * scale))) w,
     (length done + length w)%nat).
Proof.
  unfold store_window. induction w as [|x w IH]; intros done rest Hlen.
  - destruct rest; [|discriminate]. simpl. rewrite Nat.add_0_r. reflexivity.
  - destruct rest as [|y rest]; [discriminate|].
    cbn [fold_left map length]. cbv beta iota.
    set (v := Math_fround (to_number (x * scale))).
    replace (<[length done := v]> (done ++ y :: rest))
      with ((done ++ [v]) ++ rest).
    + replace (S (length done)) with (length (done ++ [v]))
        by (rewrite length_app; simpl; lia).
      rewrite IH by (simpl in Hlen; lia).
      rewrite <- app_assoc, length_app. simpl. f_equal. lia.
    + rewrite <- app_assoc. simpl.
      rewrite insert_app_r_alt, Nat.sub_diag by lia. reflexivity.
Qed.

Lemma store_window_full scale w buf :
  length buf = length w ->
  store_window scale w buf 0 =
    (map (fun x => Math_fround (to_number (x * scale))) w, length w).
Proof. intros H. apply (store_window_over scale w [] buf H). Qed.

Lemma pcm_of_full buf :
  length buf = BUFFER_SIZE -> pcm_of buf = map to_int16 buf.
Proof.
  intros H. unfold pcm_of. rewrite <- H. apply list_eq. intros j.
  rewrite !list_lookup_fmap.
  destruct (decide (j < length buf)%nat) as [Hj|Hj].
  - rewrite lookup_seq_lt by exact Hj. simpl.
    destruct (lookup_lt_is_Some_2 buf j Hj) as [v Hv]. rewrite Hv.
    reflexivity.
  - rewrite lookup_seq_ge by lia. rewrite lookup_ge_None_2 by lia.
    reflexivity.
Qed.

(** The peak is one of the absolute values, unless it is the initial 0. *)
Lemma peak_loop_attained w : forall a,
  fold_left (fun m x => Math_max m (Qabs x)) w a = a \/
  exists x, x ∈ w /\
    fold_left (fun m x => Math_max m (Qabs x)) w a = Qabs x.
Proof.
  induction w as [|y w IH]; intros a; simpl; [left; reflexivity|].
  destruct (IH (Math_max a (Qabs y))) as [H | (x & Hx & H)].
  - rewrite H. unfold Math_max. destruct (Qle_bool a (Qabs y)).
    + right. exists y. split; [left | reflexivity].
    + left. reflexivity.
  - right. exists x. split; [right; exact Hx | exact H].
Qed.

(** X2.  On a connected node at position 0, a window of the size of the
    buffer that passes the gate is emitted at once as one frame: the frame
    holds the window divided by its peak, sample for sample, whatever the
    buffer held before; and the node is back at position 0 over a zeroed
    buffer.  If the samples are finite singles, the roundings do not keep
    the peak from full scale: the frame contains 32767 or -32768. *)
Theorem full_window_becomes_one_frame
    (r : Recorder) (i : nat) (w buf : list Q) :
  nodes r !! i = Some {| connected := true; bufferPosition := 0 |} ->
  onAudioData r = true ->
  audioBuffer r = Some buf ->
  length buf = BUFFER_SIZE ->
  length w = BUFFER_SIZE ->
  (MIN_AMPLITUDE < max_amplitude w)%Q ->
  onaudioprocess r i w =
    (with_buffer r i (new_Float32Array BUFFER_SIZE) 0,
     Some (chunk_of (normalized w) (audioContext r))) /\
  pcm_of (normalized w) = map to_int16 (normalized w) /\
  (forallb is_float32 w = true ->
   32767 ∈ pcm_of (normalized w) \/ -32768 ∈ pcm_of (normalized w)).
Proof.
  intros Hn Hc Hb Hlb Hlw Hgate.
  assert (pcm_of (normalized w) = map to_int16 (normalized w)) as Hpcm.
  { apply pcm_of_full. unfold normalized. rewrite length_map. exact Hlw. }
  split; [|split; [exact Hpcm|]].
  - rewrite (gate_open r i w 0 buf Hn Hc Hb) by (apply Qgtb_true, Hgate).
    rewrite scale_of_open by exact Hgate.
    rewrite store_window_full by congruence.
    cbv zeta. cbn [fst snd].
    rewrite Hlw, Nat.leb_refl. reflexivity.
  - intros Hfin. rewrite Hpcm.
    destruct (peak_loop_attained w 0%Q) as [H0 | (x & Hx & Hmax)].
    + exfalso. unfold max_amplitude in Hgate. rewrite H0 in Hgate.
      apply (Qlt_irrefl 0). eapply Qlt_trans; [apply MIN_AMPLITUDE_pos|].
      exact Hgate.
    + fold (max_amplitude w) in Hmax.
      assert (Qabs x == max_amplitude w)%Q as Hpeak
        by (rewrite Hmax; reflexivity).
      pose proof (peak_sample_stored (max_amplitude w) x Hgate
                    (max_amplitude_finite w Hfin) Hpeak) as Hone.
      rewrite scale_of_open in Hone by exact Hgate.
      assert (to_int16
                (Math_fround
                   (to_number (x * to_number (1 / max_amplitude w)))) ∈
                map to_int16 (normalized w)) as Hin.
      { unfold normalized. rewrite map_map.
        apply (list_elem_of_fmap_2
                 (fun y => to_int16
                             (Math_fround
                                (to_number
                                   (y * to_number (1 / max_amplitude w)))))
                 w x Hx). }
      rewrite (to_int16_comp _ _ Hone) in Hin.
      destruct (Qle_bool 0 x); [left | right]; exact Hin.
Qed.

Lemma full_window_becomes_one_frame_witness :
  snd (onaudioprocess armed_recorder 0 (constant_window (-3 # 8))) =
    Some (chunk_of (normalized (constant_window (-3 # 8))) (Some 48000)) /\
  (32767 ∈ pcm_of (normalized (constant_window (-3 # 8))) \/
   -32768 ∈ pcm_of (normalized (constant_window (-3 # 8)))).
Proof.
  destruct (full_window_becomes_one_frame armed_recorder 0
              (constant_window (-3 # 8)) (new_Float32Array BUFFER_SIZE))
    as (Hrun & _ & Hfull).
  - reflexivity.
  - reflexivity.
  - reflexivity.
  - apply length_replicate.
  - apply length_replicate.
  - vm_compute. reflexivity.
  - split; [rewrite Hrun; reflexivity|].
    apply Hfull. vm_compute. reflexivity.
Defined.

End Frames.

(** ** Scaling the input

    What is left of scale invariance when the factor is not a power of
    two: every rounding moves a value by a relative [2^-53] or [2^-24], so
    the normalized samples of a window and of its scaled copy stay within
    [2^-21] of each other. *)

Section Tolerance.

Import Number AudioRecorder.
Local Open Scope Q_scope.























End Tolerance.

(** ** The recorder between events *)

Section RecorderInvariant.

Import AudioRecorder.

Lemma BUFFER_SIZE_pos : (0 < BUFFER_SIZE)%nat.
Proof. unfold BUFFER_SIZE. lia. Qed.

Lemma store_window_length scale w : forall buf pos,
  length (fst (store_window scale w buf pos)) = length buf.
Proof.
  unfold store_window. induction w as [|x w IH]; intros buf pos; simpl.
  - reflexivity.
  - rewrite IH. apply length_insert.
Qed.

Lemma recorder_ok_init : recorder_ok init.
Proof.
  unfold recorder_ok, init. simpl. repeat split; try discriminate.
  constructor.
Qed.

Lemma recorder_ok_cleanup r : recorder_ok r -> recorder_ok (cleanup r).
Proof.
  intros (_ & _ & _ & _ & Hpos). unfold recorder_ok, cleanup. simpl.
  repeat split; try discriminate.
  destruct (processor r); [|exact Hpos].
  apply Forall_alter; [exact Hpos|]. intros node _ Hnode. exact Hnode.
Qed.

Lemma recorder_ok_set_error e r : recorder_ok r -> recorder_ok (set_error e r).
Proof. intros H. exact H. Qed.

Lemma recorder_ok_callback r :
  recorder_ok r -> recorder_ok (setAudioDataCallback r).
Proof. intros H. exact H. Qed.

Lemma recorder_ok_granted r :
  recorder_ok r -> recorder_ok (startRecording_granted r).
Proof.
  intros (_ & _ & _ & _ & Hpos). unfold recorder_ok, startRecording_granted.
  simpl. repeat split; try discriminate; eauto.
  - intros i [= <-]. exists 0%nat.
    rewrite lookup_app_r, Nat.sub_diag by lia. reflexivity.
  - intros buf [= <-]. apply length_replicate.
  - apply Forall_app. split; [exact Hpos|].
    constructor; [apply BUFFER_SIZE_pos | constructor].
Qed.

Lemma recorder_ok_onaudioprocess r i w :
  recorder_ok r -> recorder_ok (fst (onaudioprocess r i w)).
Proof.
  intros Hok. unfold onaudioprocess.
  destruct (nodes r !! i) as [[[] pos]|] eqn:Hn; try exact Hok.
  destruct (onAudioData r); try exact Hok.
  destruct (audioBuffer r) as [buf|] eqn:Hb; try exact Hok.
  destruct (Qgtb (max_amplitude w) MIN_AMPLITUDE); try exact Hok.
  pose proof (store_window_length (scale_of (max_amplitude w)) w buf pos) as Hlen.
  destruct (store_window _ w buf pos) as [buf' pos']. simpl in Hlen.
  destruct Hok as (Hon & Hoff & Hptr & Hbuf & Hpos).
  assert (isRecording r = true) as Hrec.
  { destruct (isRecording r); [reflexivity|].
    destruct (Hoff eq_refl) as (_ & _ & _ & H). congruence. }
  assert (forall buf2 pos2, (pos2 < BUFFER_SIZE)%nat ->
            length buf2 = BUFFER_SIZE ->
            recorder_ok (with_buffer r i buf2 pos2)) as Hwith.
  { intros buf2 pos2 Hp2 Hl2. unfold recorder_ok, with_buffer. simpl.
    split; [intros _; destruct (Hon Hrec) as (? & ? & ? & ?); eauto|].
    split; [congruence|]. split; [|split].
    - intros j Hj. destruct (Hptr j Hj) as [p Hp].
      destruct (decide (i = j)) as [->|Hne].
      + exists pos2. apply list_lookup_insert_eq.
        apply lookup_lt_Some in Hp. exact Hp.
      + exists p. rewrite list_lookup_insert_ne by exact Hne. exact Hp.
    - intros b [= <-]. exact Hl2.
    - apply Forall_insert; [exact Hpos | exact Hp2]. }
  destruct (BUFFER_SIZE <=? pos')%nat eqn:Hfull; simpl.
  - apply Hwith; [apply BUFFER_SIZE_pos | apply length_replicate].
  - apply Hwith; [apply Nat.leb_gt, Hfull|].
    rewrite Hlen. apply Hbuf. exact Hb.
Qed.

Import UI Loop.

Lemma recorder_toggleRecording ctor s :
  recorder (toggleRecording ctor s) = recorder s \/
  recorder (toggleRecording ctor s) = cleanup (recorder s).
Proof.
  unfold toggleRecording, flushed.
  repeat case_match; rewrite ?recorder_error_watch; simpl;
    rewrite ?recorder_error_watch; simpl; auto.
Qed.

Lemma recorder_lastMessage_watch env m s :
  recorder (lastMessage_watch env m s) = recorder s.
Proof.
  unfold lastMessage_watch, on_transcription, on_audio_segment, on_error,
    on_status.
  repeat case_match; reflexivity.
Qed.

Lemma recorder_playSegment sid seg s :
  recorder (playSegment sid seg s) = recorder s.
Proof. unfold playSegment. case_match; reflexivity. Qed.

Lemma recorder_audioDataCallback d s :
  recorder (audioDataCallback d s) = recorder s.
Proof. unfold audioDataCallback. case_match; reflexivity. Qed.

(** Any invariant of the steps holds in every reachable state. *)
Lemma run_invariant (P : State -> Prop) :
  (forall e s s', step e s = Some s' -> P s -> P s') ->
  forall trace s s', run trace s = Some s' -> P s -> P s'.
Proof.
  intros Hstep. induction trace as [|e trace IH]; intros s s' Hrun Hs.
  - simpl in Hrun. congruence.
  - simpl in Hrun. destruct (step e s) as [s1|] eqn:He; [|discriminate].
    apply (IH s1 s' Hrun). apply (Hstep e s s1 He Hs).
Qed.

Lemma step_recorder_ok e s s' :
  step e s = Some s' -> recorder_ok (recorder s) -> recorder_ok (recorder s').
Proof.
  intros Hstep Hok. destruct e; unfold step in Hstep;
    repeat case_match; simplify_eq; unfold flushed;
    rewrite ?recorder_error_watch; simpl;
    rewrite ?recorder_error_watch; simpl;
    rewrite ?recorder_error_watch; simpl;
    rewrite ?recorder_lastMessage_watch, ?recorder_playSegment,
      ?recorder_audioDataCallback; simpl;
    try assumption;
    try (apply recorder_ok_cleanup; assumption).
  - destruct (recorder_toggleRecording ctor s) as [-> | ->];
      [assumption | apply recorder_ok_cleanup; assumption].
  - apply recorder_ok_granted; assumption.
  - apply recorder_ok_cleanup, recorder_ok_cleanup. assumption.
  - match goal with
    | H : onaudioprocess ?r ?i ?w = (_, _) |- _ =>
        pose proof (recorder_ok_onaudioprocess r i w Hok) as X;
        rewrite H in X; exact X
    end.
  - match goal with
    | H : onaudioprocess ?r ?i ?w = (_, _) |- _ =>
        pose proof (recorder_ok_onaudioprocess r i w Hok) as X;
        rewrite H in X; exact X
    end.
Qed.

(** X3.  In every reachable state the device graph is held whole or not at
    all: while [isRecording] holds, the node, the context, the stream and
    the buffer are all there, and the node the variable [processor] names is
    connected; while it does not hold, none of them is (so no failure path
    leaves a half-built graph).  The accumulation buffer always has the
    frame size and every node's write position lies inside it. *)
Theorem recorder_resources_consistent (s : State) :
  reachable s -> recorder_ok (recorder s).
Proof.
  intros [trace Hrun].
  apply (run_invariant (fun s => recorder_ok (recorder s)) step_recorder_ok
           trace init s Hrun).
  apply recorder_ok_init.
Qed.

Lemma recorder_resources_consistent_witness :
  recorder_ok (recorder (after started)) /\
  recorder_ok
    (recorder
       (after (announced ++
               [TimerFired; MicFailed 0 (ErrorObject "Permission denied")]))).
Proof.
  split; apply recorder_resources_consistent.
  - exists started. vm_compute. reflexivity.
  - exists (announced ++
            [TimerFired; MicFailed 0 (ErrorObject "Permission denied")]).
    vm_compute. reflexivity.
Defined.

(** X4.  [cleanup] is idempotent and may run before any arm; once it has
    run, no capture window is processed any more, on whichever node it
    arrives: nothing is buffered and no frame is handed to the callback. *)
Theorem cleanup_idempotent_and_final (r : Recorder) :
  cleanup (cleanup r) = cleanup r /\
  cleanup AudioRecorder.init = AudioRecorder.init /\
  (forall i w, onaudioprocess (cleanup r) i w = (cleanup r, None)) /\
  stopRecording (stopRecording r) = stopRecording r.
Proof.
  assert (cleanup (cleanup r) = cleanup r) as H by reflexivity.
  split; [exact H|]. split; [reflexivity|]. split; [|exact H].
  intros i w. unfold onaudioprocess.
  destruct (nodes (cleanup r) !! i) as [[[] pos]|]; try reflexivity.
  destruct (onAudioData (cleanup r)); reflexivity.
Qed.

End RecorderInvariant.

(** ** What every event preserves *)

Section Evolution.

Import UI Loop.

Lemma evolves_refl s : evolves s s.
Proof.
  unfold evolves. rewrite !Nat.sub_diag. simpl. rewrite !app_nil_r.
  split; [exists []; rewrite app_nil_r; split; [reflexivity | constructor]|].
  split; [exists []; rewrite app_nil_r; split; reflexivity|].
  repeat split; lia.
Qed.

Lemma seq_split_sub (a b c : nat) :
  (a <= b)%nat -> (b <= c)%nat ->
  seq a (b - a) ++ seq b (c - b) = seq a (c - a).
Proof.
  intros Hab Hbc. replace (c - a)%nat with ((b - a) + (c - b))%nat by lia.
  rewrite seq_app. do 2 f_equal. lia.
Qed.

Lemma evolves_trans s1 s2 s3 : evolves s1 s2 -> evolves s2 s3 -> evolves s1 s3.
Proof.
  intros ((n1 & Hs1 & Hc1) & (g1 & Ht1 & Hi1) & Ha1 & Hu1 & Ho1)
         ((n2 & Hs2 & Hc2) & (g2 & Ht2 & Hi2) & Ha2 & Hu2 & Ho2).
  unfold evolves. split; [|split; [|split; [|split]]].
  - exists (n1 ++ n2). rewrite Hs2, Hs1, app_assoc. split; [reflexivity|].
    apply Forall_app. split; assumption.
  - exists (g1 ++ g2). rewrite Ht2, Ht1, app_assoc. split; [reflexivity|].
    unfold segments_of in *. rewrite fmap_app, concat_app, fmap_app, Hi1, Hi2.
    apply seq_split_sub; assumption.
  - lia.
  - rewrite Hu2, Hu1, <- app_assoc. f_equal. apply seq_split_sub; assumption.
  - lia.
Qed.

(** A state that differs in none of the fields [evolves] reads. *)
Lemma evolves_same s s' :
  sent s' = sent s -> transcriptions s' = transcriptions s ->
  allocated s' = allocated s -> revoked s' = revoked s ->
  loaded_url s' = loaded_url s -> objectURLs s' = objectURLs s ->
  evolves s s'.
Proof.
  intros H1 H2 H3 H4 H5 H6. unfold evolves, accounted_urls.
  rewrite H1, H2, H3, H4, H5, H6, !Nat.sub_diag. simpl. rewrite !app_nil_r.
  split; [exists []; rewrite app_nil_r; split; [reflexivity | constructor]|].
  split; [exists []; rewrite app_nil_r; split; reflexivity|].
  repeat split; lia.
Qed.

(** A state that differs by one more client message sent. *)
Lemma evolves_sendMessage m s :
  client_message m -> evolves s (sendMessage m s).
Proof.
  intros Hm. unfold evolves, accounted_urls, sent, sendMessage. simpl.
  rewrite sendMessage_sent, !Nat.sub_diag. simpl. rewrite !app_nil_r.
  split.
  - destruct (WebSocket.ws_open (socket s)).
    + eexists. split; [reflexivity|].
      apply Forall_cons. split; [exact Hm | constructor].
    + exists []. rewrite app_nil_r. split; [reflexivity | constructor].
  - split; [exists []; rewrite app_nil_r; split; reflexivity|].
    repeat split; lia.
Qed.

Lemma evolves_error_watch before s : evolves s (error_watch before s).
Proof.
  destruct (error_watch_cases before s) as [-> | ->];
    [apply evolves_refl | apply evolves_same; reflexivity].
Qed.

Lemma evolves_flushed f s0 s :
  evolves s0 s -> evolves s (f s) -> evolves s0 (flushed f s).
Proof.
  intros H0 Hf. eapply evolves_trans; [exact H0|].
  eapply evolves_trans; [exact Hf | apply evolves_error_watch].
Qed.

Lemma evolves_then f s0 s :
  evolves s0 s -> evolves s (f s) -> evolves s0 (f s).
Proof. intros H0 Hf. eapply evolves_trans; eassumption. Qed.

Lemma evolves_stopWebSocketRecording s : evolves s (stopWebSocketRecording s).
Proof.
  unfold stopWebSocketRecording, WebSocket.stopRecording.
  destruct (WebSocket.isConnected (socket s)).
  - apply (evolves_sendMessage (WebSocketMessage.of_status "stop_recording") s).
    unfold client_message. auto.
  - apply evolves_same; destruct s; reflexivity.
Qed.

Lemma evolves_toggle_stop s : evolves s (toggle_stop s).
Proof.
  unfold toggle_stop.
  eapply evolves_trans; [|apply evolves_same; reflexivity].
  eapply evolves_trans; [|apply evolves_stopWebSocketRecording].
  apply evolves_same; reflexivity.
Qed.

Lemma evolves_toggle_catch err s : evolves s (toggle_catch err s).
Proof.
  unfold toggle_catch.
  eapply evolves_trans; [|apply evolves_same; reflexivity].
  eapply evolves_trans; [|apply evolves_stopWebSocketRecording].
  apply evolves_same; reflexivity.
Qed.

Lemma evolves_toggle_announce s : evolves s (toggle_announce s).
Proof.
  unfold toggle_announce, suspend.
  eapply evolves_trans; [|apply evolves_same; reflexivity].
  apply evolves_sendMessage. unfold client_message. auto.
Qed.

Lemma evolves_ws_startRecording_send s : evolves s (ws_startRecording_send s).
Proof.
  apply (evolves_sendMessage (WebSocketMessage.of_status "start_recording") s).
  unfold client_message. auto.
Qed.

Lemma evolves_toggleRecording ctor s : evolves s (toggleRecording ctor s).
Proof.
  unfold toggleRecording. repeat case_match.
  - apply evolves_flushed; [apply evolves_refl | apply evolves_toggle_stop].
  - apply evolves_flushed; [|apply evolves_toggle_announce].
    apply evolves_flushed;
      [apply evolves_refl | apply evolves_ws_startRecording_send].
  - apply evolves_flushed; [|apply evolves_toggle_catch].
    apply evolves_flushed; [apply evolves_refl|].
    apply evolves_same; reflexivity.
  - apply evolves_same; reflexivity.
Qed.

Lemma evolves_audioDataCallback d s : evolves s (audioDataCallback d s).
Proof.
  unfold audioDataCallback. case_match; [|apply evolves_refl].
  apply evolves_sendMessage. unfold client_message. eauto 6.
Qed.

Lemma evolves_playSegment sid seg s : evolves s (playSegment sid seg s).
Proof.
  unfold playSegment. case_match.
  - apply evolves_same; try reflexivity.
    unfold loaded_url, stopPlayback. simpl.
    destruct (audioPlayer s); reflexivity.
  - eapply evolves_trans; [apply (evolves_same s (with_current (Some seg) s));
                            reflexivity|].
    apply evolves_sendMessage. unfold client_message. eauto 8.
Qed.

Lemma evolves_stopPlayback s : evolves s (stopPlayback s).
Proof.
  apply evolves_same; try reflexivity.
  unfold loaded_url, stopPlayback. simpl. destruct (audioPlayer s); reflexivity.
Qed.

Lemma evolves_on_transcription env m s : evolves s (on_transcription env m s).
Proof.
  unfold on_transcription. repeat case_match; try apply evolves_refl.
  unfold evolves, accounted_urls, sent, loaded_url. simpl.
  rewrite !Nat.sub_diag. simpl. rewrite !app_nil_r.
  split; [exists []; rewrite app_nil_r; split; [reflexivity | constructor]|].
  split; [|repeat split; lia].
  eexists. split; [reflexivity|].
  unfold segments_of. simpl. rewrite app_nil_r, copy_segments_identities.
  f_equal. unfold copy_segments. rewrite length_imap. lia.
Qed.

Lemma evolves_on_audio_segment env m s : evolves s (on_audio_segment env m s).
Proof.
  unfold on_audio_segment.
  destruct (audioPlayer s) as [[src paused time]|] eqn:Hp;
    [|apply evolves_same; reflexivity].
  destruct (truthy (WebSocketMessage.audio m));
    [|apply evolves_same; reflexivity].
  destruct (atob_throws env) as [err|].
  - eapply evolves_trans; [|apply evolves_stopPlayback].
    apply evolves_same; reflexivity.
  - unfold evolves, accounted_urls, sent, loaded_url. simpl.
    rewrite !Nat.sub_diag, Hp.
    replace (S (objectURLs s) - objectURLs s)%nat with 1%nat by lia.
    simpl. rewrite ?app_nil_r.
    split; [exists []; rewrite app_nil_r; split; [reflexivity | constructor]|].
    split; [exists []; rewrite app_nil_r; split; reflexivity|].
    split; [lia|]. split; [|lia].
    destruct src; simpl; rewrite ?app_nil_r; reflexivity.
Qed.

Lemma evolves_lastMessage_watch env m s :
  evolves s (lastMessage_watch env m s).
Proof.
  unfold lastMessage_watch. repeat case_match.
  - apply evolves_on_transcription.
  - apply evolves_on_audio_segment.
  - unfold on_error. repeat case_match; apply evolves_same; reflexivity.
  - unfold on_status. repeat case_match;
      first [apply evolves_refl | apply evolves_same; reflexivity].
  - apply evolves_refl.
Qed.

(** Every event extends the log, the history and the URL account. *)
Lemma step_evolves e s s' : step e s = Some s' -> evolves s s'.
Proof.
  intros Hstep. destruct e; unfold step in Hstep;
    repeat case_match; simplify_eq.
  - (* Mounted *)
    apply evolves_same; try reflexivity.
    unfold loaded_url, onMounted. simpl.
    match goal with H : audioPlayer s = None |- _ => rewrite H end.
    reflexivity.
  - apply evolves_toggleRecording.
  - (* SocketOpen, an invocation waiting *)
    apply evolves_flushed; [|apply evolves_toggle_announce].
    apply evolves_flushed; [|apply evolves_ws_startRecording_send].
    eapply evolves_trans; [|apply evolves_same; reflexivity].
    apply evolves_flushed; [apply evolves_refl | apply evolves_same; reflexivity].
  - apply evolves_flushed; [apply evolves_refl | apply evolves_same; reflexivity].
  - (* SocketError *)
    apply evolves_flushed; [|apply evolves_toggle_catch].
    eapply evolves_trans; [|apply evolves_same; reflexivity].
    apply evolves_flushed; [apply evolves_refl | apply evolves_same; reflexivity].
  - apply evolves_flushed; [apply evolves_refl | apply evolves_same; reflexivity].
  - apply evolves_flushed; [|apply evolves_toggle_catch].
    eapply evolves_trans; [|apply evolves_same; reflexivity].
    apply evolves_flushed; [apply evolves_refl | apply evolves_same; reflexivity].
  - apply evolves_flushed; [apply evolves_refl | apply evolves_same; reflexivity].
  - apply evolves_flushed; [|apply evolves_toggle_catch].
    eapply evolves_trans; [|apply evolves_same; reflexivity].
    apply evolves_flushed; [apply evolves_refl | apply evolves_same; reflexivity].
  - apply evolves_flushed; [apply evolves_refl | apply evolves_same; reflexivity].
  - (* SocketClose *)
    apply evolves_flushed; [apply evolves_refl | apply evolves_same; reflexivity].
  - apply evolves_flushed; [apply evolves_refl | apply evolves_same; reflexivity].
  - apply evolves_flushed; [apply evolves_refl | apply evolves_same; reflexivity].
  - (* SocketMessage *)
    eapply evolves_trans; [|apply evolves_error_watch].
    eapply evolves_trans; [|apply evolves_lastMessage_watch].
    apply evolves_same; reflexivity.
  - eapply evolves_trans; [|apply evolves_error_watch].
    apply evolves_same; reflexivity.
  - (* TimerFired *)
    apply evolves_same; reflexivity.
  - (* MicGranted *)
    apply evolves_flushed; [|apply evolves_same; reflexivity].
    apply evolves_flushed; [|apply evolves_same; reflexivity].
    apply evolves_same; reflexivity.
  - (* MicFailed *)
    apply evolves_flushed; [|apply evolves_toggle_catch].
    apply evolves_flushed; [|apply evolves_same; reflexivity].
    apply evolves_same; reflexivity.
  - (* AudioProcess *)
    apply evolves_flushed; [|apply evolves_audioDataCallback].
    apply evolves_same; reflexivity.
  - apply evolves_same; reflexivity.
  - apply evolves_flushed; [apply evolves_refl | apply evolves_playSegment].
  - apply evolves_stopPlayback.
  - (* PlaybackProgress *)
    apply evolves_same; try reflexivity.
    unfold loaded_url. simpl.
    match goal with H : audioPlayer s = Some _ |- _ => rewrite H end.
    reflexivity.
  - apply evolves_same; reflexivity.
  - eapply evolves_trans; [|apply evolves_stopPlayback].
    apply evolves_same; reflexivity.
Qed.

Lemma run_evolves trace : forall s s', run trace s = Some s' -> evolves s s'.
Proof.
  induction trace as [|e trace IH]; intros s s' Hrun; simpl in Hrun.
  - injection Hrun as <-. apply evolves_refl.
  - destruct (step e s) as [s1|] eqn:He; [|discriminate].
    eapply evolves_trans; [apply (step_evolves e s s1 He) | apply IH, Hrun].
Qed.

End Evolution.

(** ** Log, history and playback resources *)

Section Accounts.

Import UI Loop.

Lemma client_message_type m :
  client_message m ->
  WebSocketMessage.type m = "status" \/
  WebSocketMessage.type m = "start_recording" \/
  WebSocketMessage.type m = "audio_data" \/
  WebSocketMessage.type m = "play_audio".
Proof.
  intros [-> | [-> | [-> | [(? & ->) | (? & ? & ? & ->)]]]]; simpl; auto.
Qed.

(** X5.  The client only ever sends the five messages it builds itself:
    the two [status] messages, [start_recording], [audio_data] and
    [play_audio].  In particular no reachable state has a message of type
    [stop_recording] in its log, and no event removes a message from the
    log. *)
Theorem only_client_messages_are_sent (s : State) :
  reachable s ->
  Forall client_message (sent s) /\
  (forall m, m ∈ sent s -> WebSocketMessage.type m <> "stop_recording") /\
  (forall e s', step e s = Some s' -> sent s `prefix_of` sent s').
Proof.
  intros [trace Hrun].
  destruct (run_evolves trace init s Hrun) as ((new & Hnew & Hall) & _).
  assert (Forall client_message (sent s)) as Hsent
    by (rewrite Hnew; exact Hall).
  split; [exact Hsent|]. split.
  - intros m Hm.
    destruct (client_message_type m
                (proj1 (Forall_forall _ _) Hsent m Hm))
      as [H | [H | [H | H]]]; rewrite H; discriminate.
  - intros e s' Hstep.
    destruct (step_evolves e s s' Hstep) as ((more & Hmore & _) & _).
    exists more. exact Hmore.
Qed.

Lemma only_client_messages_are_sent_witness :
  Forall client_message (sent (after (started ++ [Click None]))) /\
  (forall m, m ∈ sent (after (started ++ [Click None])) ->
     WebSocketMessage.type m <> "stop_recording").
Proof.
  destruct (only_client_messages_are_sent (after (started ++ [Click None])))
    as (H1 & H2 & _).
  - exists (started ++ [Click None]). vm_compute. reflexivity.
  - split; assumption.
Defined.

(** X6.  The transcript history is append-only: along any sequence of
    events, stop and start cycles included, the earlier history is a prefix
    of the later one. *)
Theorem history_is_append_only (trace : list Event) (s s' : State) :
  run trace s = Some s' ->
  transcriptions s `prefix_of` transcriptions s'.
Proof.
  intros Hrun.
  destruct (run_evolves trace s s' Hrun) as (_ & (groups & Hg & _) & _).
  exists groups. exact Hg.
Qed.

Lemma history_is_append_only_witness :
  transcriptions (after transcribed) `prefix_of`
  transcriptions (after (transcribed ++ [Click None; Click None; inbound_hello])).
Proof.
  apply (history_is_append_only [Click None; Click None; inbound_hello]).
  vm_compute. reflexivity.
Defined.

Lemma reachable_identities s :
  reachable s ->
  Segment.identity <$> segments_of (transcriptions s) = seq 0 (allocated s).
Proof.
  intros [trace Hrun].
  destruct (run_evolves trace init s Hrun) as (_ & (groups & Hg & Hi) & _).
  simpl in Hg, Hi. rewrite Nat.sub_0_r in Hi. rewrite Hg. exact Hi.
Qed.

(** X7.  In every reachable state the segment objects of the history are
    pairwise distinct: two positions of the transcript never hold the same
    object, so at most one displayed segment is the playing one. *)
Theorem displayed_segments_are_distinct_objects
    (s : State) (i j : nat) (a b : Segment.t) :
  reachable s ->
  segments_of (transcriptions s) !! i = Some a ->
  segments_of (transcriptions s) !! j = Some b ->
  (Segment.same a b = true -> i = j) /\
  (isPlayingSegment a s = true -> isPlayingSegment b s = true -> i = j).
Proof.
  intros Hreach Ha Hb.
  pose proof (reachable_identities s Hreach) as Hids.
  assert (forall k x, segments_of (transcriptions s) !! k = Some x ->
            Segment.identity x = k) as Hid.
  { intros k x Hk.
    assert ((Segment.identity <$> segments_of (transcriptions s)) !! k =
            Some (Segment.identity x)) as H
      by (rewrite list_lookup_fmap, Hk; reflexivity).
    rewrite Hids in H. apply lookup_seq in H. lia. }
  assert (Segment.same a b = true -> i = j) as Hsame.
  { intros H. apply Nat.eqb_eq in H.
    rewrite <- (Hid i a Ha), <- (Hid j b Hb). exact H. }
  split; [exact Hsame|].
  unfold isPlayingSegment. destruct (currentPlayingSegment s) as [c|];
    [|discriminate].
  intros H1 H2. apply Hsame. unfold Segment.same in *.
  apply Nat.eqb_eq in H1, H2. apply Nat.eqb_eq. congruence.
Qed.

Lemma displayed_segments_are_distinct_objects_witness :
  Segment.same (hello_object 0) (hello_object 1) = false.
Proof.
  destruct (displayed_segments_are_distinct_objects
              (after transcribed_twice) 0 1 (hello_object 0) (hello_object 1))
    as [H _].
  - exists transcribed_twice. vm_compute. reflexivity.
  - vm_compute. reflexivity.
  - vm_compute. reflexivity.
  - destruct (Segment.same (hello_object 0) (hello_object 1)) eqn:E;
      [|reflexivity].
    discriminate (H eq_refl).
Defined.

(** X8.  In every reachable state the object URLs created so far are, in
    order of creation, the revoked ones followed by the one loaded in the
    player: every URL but the loaded one has been revoked, none twice, and
    the loaded one has not. *)
Theorem object_urls_are_accounted_for (s : State) :
  reachable s ->
  accounted_urls s = seq 0 (objectURLs s) /\
  NoDup (revoked s) /\
  (forall u, u ∈ loaded_url s -> u ∉ revoked s).
Proof.
  intros [trace Hrun].
  destruct (run_evolves trace init s Hrun) as (_ & _ & _ & Hu & _).
  simpl in Hu. rewrite Nat.sub_0_r in Hu.
  split; [exact Hu|].
  pose proof (NoDup_seq 0 (objectURLs s)) as Hnd. rewrite <- Hu in Hnd.
  unfold accounted_urls in Hnd. apply NoDup_app in Hnd as (H1 & H2 & _).
  split; [exact H1|]. intros u Hin Hrev. exact (H2 u Hrev Hin).
Qed.

Lemma object_urls_are_accounted_for_witness :
  accounted_urls (after played_twice) = seq 0 (objectURLs (after played_twice))
  /\ revoked (after played_twice) = [0%nat]
  /\ loaded_url (after played_twice) = [1%nat].
Proof.
  split; [|split; vm_compute; reflexivity].
  apply (object_urls_are_accounted_for (after played_twice)).
  exists played_twice. vm_compute. reflexivity.
Defined.

End Accounts.
